(** * DijkstraVisualizer: a step-recording Dijkstra engine

    Shallow embedding of [dijkstra_visualizer.py] and the properties of
    its [run] method.

    Modelling choices, all read off the source:
    - node identifiers are Python [str] values, compared by the tuple
      comparison of [heapq] lexicographically on code points;
    - edge weights are Python [int] values (as in the example graph of the
      docstring), hence unbounded integers [Z]; a recorded distance is
      either such an integer or [float('inf')];
    - [self.graph] is a dict of dicts: the outer dict is only looked up and
      iterated to build the distance table, the inner dict is iterated with
      [.items()] in insertion order, which the trace makes observable, so
      it is an association list;
    - [distances] is a dict (a finite map), [visited] a set; a second
      embedding, [run_on], takes the layout of the heap and the order of
      [list(visited)] from a runtime, and is shown to agree with [run];
    - [self.steps] is the only attribute that [run] mutates; it survives
      the call also when the call raises;
    - the [while] loop takes fuel; [run] gives it the amount that
      [run_fuel_total] shows to be always enough. *)

From Stdlib Require Import ZArith Lia OrdersEx.
From stdpp Require Import gmap strings list fin_maps.

Local Open Scope Z_scope.

(** ** Data model *)

Abbreviation node := string.

(** A value stored in the distance table: an [int] or [float('inf')]. *)
Inductive dist : Type :=
| Fin (z : Z)
| Inf.

#[global] Instance dist_eq_dec : EqDecision dist.
Proof. solve_decision. Defined.

(** Python's [new_distance < distances[neighbor]], the left operand being
    an [int]. *)
Definition lt_dist (z : Z) (d : dist) : bool :=
  match d with
  | Fin y => z <? y
  | Inf => true
  end.

(** The order of recorded distances, [float('inf')] on top. *)
Definition dist_le (a b : dist) : Prop :=
  match a, b with
  | Fin x, Fin y => x <= y
  | _, Inf => True
  | Inf, Fin _ => False
  end.

Definition dist_lt (a b : dist) : Prop :=
  match a, b with
  | Fin x, Fin y => x < y
  | Fin _, Inf => True
  | Inf, _ => False
  end.

(** The adjacency of one node, [self.graph[u].items()]. *)
Abbreviation adjacency := (list (node * Z)).

(** One entry of [self.steps]; the ["action"] key is the constructor.
    [list(visited)] lists the set in an order Python leaves unspecified, so
    the event carries the set. *)
Inductive step : Type :=
| visit_node (current_node : node) (distances : gmap node dist)
    (visited_nodes : gset node)
| relax_edge (from to : node) (updated_distance : Z)
    (distances : gmap node dist).

#[global] Instance step_eq_dec : EqDecision step.
Proof. solve_decision. Defined.

(** The ["distances"] entry that both kinds of event carry. *)
Definition snapshot (e : step) : gmap node dist :=
  match e with
  | visit_node _ d _ => d
  | relax_edge _ _ _ d => d
  end.

(** The only exception the method can raise: a failed dict lookup. *)
Inductive exn : Type :=
| KeyError (key : node).

(** ** [heapq]

    The binary heap of the Python standard library. [run] keeps the heap
    in a local variable and touches it only through [heappush], [heappop]
    and its truth value, so the layout of the underlying list is not
    observable; the heap is modelled by its contract, a bag of tuples from
    which [heappop] takes the least one in Python's tuple order. *)
Module heapq.

Abbreviation entry := (Z * node)%type.

(** [a < b] and [a <= b] on [str]: lexicographic on the characters, which
    on the UTF-8 bytes of a string is the order of its code points. *)
Definition node_ltb (a b : node) : bool :=
  match String_as_OT.compare a b with Lt => true | _ => false end.

Definition node_le (a b : node) : Prop := String_as_OT.compare a b ≠ Gt.

(** [(d1, n1) < (d2, n2)] and [(d1, n1) <= (d2, n2)] on Python tuples. *)
Definition entry_ltb (a b : entry) : bool :=
  (a.1 <? b.1) || ((a.1 =? b.1) && node_ltb a.2 b.2).

Definition entry_le (a b : entry) : Prop :=
  a.1 < b.1 ∨ (a.1 = b.1 ∧ node_le a.2 b.2).

Definition heappush (q : list entry) (x : entry) : list entry := x :: q.

(** [None] stands for the empty heap, which [run] never pops. *)
Fixpoint heappop (q : list entry) : option (entry * list entry) :=
  match q with
  | [] => None
  | x :: q' =>
      match heappop q' with
      | None => Some (x, [])
      | Some (m, r) =>
          if entry_ltb m x then Some (m, x :: r) else Some (x, q')
      end
  end.

End heapq.
Import heapq.

(** ** The engine *)

Record engine : Type := Engine {
  graph : gmap node (list (node * Z));
  steps : list step
}.

(** [DijkstraVisualizer.__init__] *)
Definition init (g : gmap node (list (node * Z))) : engine :=
  {| graph := g; steps := [] |}.

(** The local variables of [run] together with [self.steps]. *)
Record state : Type := State {
  distances : gmap node dist;
  visited : gset node;
  priority_queue : list (Z * node);
  trace : list step
}.

(** How a block of statements ends: normally, or by raising; the state at
    the raise is kept because [self.steps] outlives the call. *)
Inductive outcome : Type :=
| Normal (st : state)
| Raised (e : exn) (st : state).

(** The body of the [for neighbor, weight in ...items()] loop. *)
Definition relax (current_node : node) (current_distance : Z)
    (st : state) (item : node * Z) : outcome :=
  let '(neighbor, weight) := item in
  if decide (neighbor ∈ visited st) then Normal st
  else
    let new_distance := current_distance + weight in
    match distances st !! neighbor with
    | None => Raised (KeyError neighbor) st
    | Some old =>
        if lt_dist new_distance old then
          let distances' := <[neighbor := Fin new_distance]> (distances st) in
          Normal {| distances := distances';
                    visited := visited st;
                    priority_queue :=
                      heappush (priority_queue st) (new_distance, neighbor);
                    trace := trace st ++
                      [relax_edge current_node neighbor new_distance
                         distances'] |}
        else Normal st
    end.

(** The [for] loop over the items of the current node. *)
Fixpoint relax_edges (current_node : node) (current_distance : Z)
    (items : list (node * Z)) (st : state) : outcome :=
  match items with
  | [] => Normal st
  | item :: items' =>
      match relax current_node current_distance st item with
      | Normal st' => relax_edges current_node current_distance items' st'
      | Raised e st' => Raised e st'
      end
  end.

(** One turn of [while priority_queue:]. [None] when the test fails, the
    queue being empty; otherwise the outcome of the body. *)
Definition iteration (g : gmap node (list (node * Z))) (st : state)
    : option outcome :=
  match heappop (priority_queue st) with
  | None => None
  | Some ((current_distance, current_node), q') =>
      if decide (current_node ∈ visited st) then
        Some (Normal {| distances := distances st; visited := visited st;
                        priority_queue := q'; trace := trace st |})
      else
        let visited' := {[current_node]} ∪ visited st in
        let st1 :=
          {| distances := distances st;
             visited := visited';
             priority_queue := q';
             trace := trace st ++
               [visit_node current_node (distances st) visited'] |} in
        match g !! current_node with
        | None => Some (Raised (KeyError current_node) st1)
        | Some items =>
            Some (relax_edges current_node current_distance items st1)
        end
  end.

(** The relaxation as the design document words it, the candidate being
    the table entry of the current node plus the weight, that is
    [new_distance = distances[current_node] + weight]. With an entry of
    [float('inf')] the candidate is [float('inf')], below no entry. *)
Definition relax_by_lookup (current_node : node) (st : state)
    (item : node * Z) : outcome :=
  let '(neighbor, weight) := item in
  if decide (neighbor ∈ visited st) then Normal st
  else
    match distances st !! current_node with
    | None => Raised (KeyError current_node) st
    | Some Inf =>
        match distances st !! neighbor with
        | None => Raised (KeyError neighbor) st
        | Some _ => Normal st
        end
    | Some (Fin d) =>
        let new_distance := d + weight in
        match distances st !! neighbor with
        | None => Raised (KeyError neighbor) st
        | Some old =>
            if lt_dist new_distance old then
              let distances' :=
                <[neighbor := Fin new_distance]> (distances st) in
              Normal {| distances := distances';
                        visited := visited st;
                        priority_queue :=
                          heappush (priority_queue st)
                            (new_distance, neighbor);
                        trace := trace st ++
                          [relax_edge current_node neighbor new_distance
                             distances'] |}
            else Normal st
        end
    end.

Fixpoint relax_edges_by_lookup (current_node : node)
    (items : list (node * Z)) (st : state) : outcome :=
  match items with
  | [] => Normal st
  | item :: items' =>
      match relax_by_lookup current_node st item with
      | Normal st' => relax_edges_by_lookup current_node items' st'
      | Raised e st' => Raised e st'
      end
  end.

Definition iteration_by_lookup (g : gmap node (list (node * Z)))
    (st : state) : option outcome :=
  match heappop (priority_queue st) with
  | None => None
  | Some ((_, current_node), q') =>
      if decide (current_node ∈ visited st) then
        Some (Normal {| distances := distances st; visited := visited st;
                        priority_queue := q'; trace := trace st |})
      else
        let visited' := {[current_node]} ∪ visited st in
        let st1 :=
          {| distances := distances st;
             visited := visited';
             priority_queue := q';
             trace := trace st ++
               [visit_node current_node (distances st) visited'] |} in
        match g !! current_node with
        | None => Some (Raised (KeyError current_node) st1)
        | Some items => Some (relax_edges_by_lookup current_node items st1)
        end
  end.

(** The [while] loop; [None] when the fuel runs out. *)
Fixpoint while_loop (fuel : nat) (g : gmap node (list (node * Z)))
    (st : state) : option outcome :=
  match fuel with
  | O => None
  | S fuel' =>
      match iteration g st with
      | None => Some (Normal st)
      | Some (Normal st') => while_loop fuel' g st'
      | Some (Raised e st') => Some (Raised e st')
      end
  end.

(** [distances] as the first two statements of [run] leave it. *)
Definition initial_distances (g : gmap node (list (node * Z)))
    (start_node : node) : gmap node dist :=
  <[start_node := Fin 0]> ((λ _, Inf) <$> g).

(** The statements of [run] before the loop. *)
Definition initial_state (self : engine) (start_node : node) : state :=
  {| distances := initial_distances (graph self) start_node;
     visited := ∅;
     priority_queue := [(0, start_node)];
     trace := steps self |}.

(** What a call of [run] gives its caller. *)
Inductive result : Type :=
| Returns (final_distances : gmap node dist) (execution_steps : list step)
| Raises (e : exn).

(** [return distances, self.steps]: the trace handed to the caller is the
    list that the engine keeps, with all that it holds. *)
Definition finish (self : engine) (o : outcome) : result * engine :=
  match o with
  | Normal st =>
      (Returns (distances st) (trace st),
       {| graph := graph self; steps := trace st |})
  | Raised e st =>
      (Raises e, {| graph := graph self; steps := trace st |})
  end.

Definition run_fuel (fuel : nat) (self : engine) (start_node : node)
    : option (result * engine) :=
  finish self <$> while_loop fuel (graph self) (initial_state self start_node).

(** The number of edges of the graph. *)
Definition edge_count (g : gmap node (list (node * Z))) : nat :=
  sum_list ((λ kv, length kv.2) <$> map_to_list g).

(** Every iteration of the loop pops one entry, and an entry is pushed at
    most once per edge, so this many iterations always suffice. *)
Definition enough_fuel (g : gmap node (list (node * Z))) : nat :=
  S (S (edge_count g)).

(** [DijkstraVisualizer.run] *)
Definition run (self : engine) (start_node : node) : option (result * engine) :=
  run_fuel (enough_fuel (graph self)) self start_node.

(** The graph of the docstring and of the [__main__] block. *)
Definition example_graph : gmap node (list (node * Z)) :=
  <["A" := [("B", 4); ("C", 1)]]>
  (<["B" := [("A", 4); ("C", 2); ("D", 5)]]>
  (<["C" := [("A", 1); ("B", 2); ("D", 8)]]>
  (<["D" := [("B", 5); ("C", 8)]]> ∅))).

Definition example_distances : gmap node dist :=
  <["A" := Fin 0]> (<["B" := Fin 3]> (<["C" := Fin 1]> (<["D" := Fin 8]> ∅))).

(** The events of a call from [A] on a fresh engine for the example
    graph: [A] is visited and relaxes [B] to 4 and [C] to 1; [C] is visited
    and relaxes [B] to 3 and [D] to 9; [B] is visited and relaxes [D] to 8;
    [D] is visited. *)
Definition example_trace : list step :=
  let D0 := initial_distances example_graph "A" in
  let D1 := <["B" := Fin 4]> D0 in
  let D2 := <["C" := Fin 1]> D1 in
  let D3 := <["B" := Fin 3]> D2 in
  let D4 := <["D" := Fin 9]> D3 in
  let D5 := <["D" := Fin 8]> D4 in
  [visit_node "A" D0 {["A"]};
   relax_edge "A" "B" 4 D1;
   relax_edge "A" "C" 1 D2;
   visit_node "C" D2 {["A"; "C"]};
   relax_edge "C" "B" 3 D3;
   relax_edge "C" "D" 9 D4;
   visit_node "B" D4 {["A"; "C"; "B"]};
   relax_edge "B" "D" 8 D5;
   visit_node "D" D5 {["A"; "C"; "B"; "D"]}].

(** [{A: {B: 1}, B: {}, C: {}}]: the node [C] cannot be reached from [A]. *)
Definition disconnected_graph : gmap node (list (node * Z)) :=
  <["A" := [("B", 1)]]> (<["B" := []]> (<["C" := []]> ∅)).

(** What a call from [A] on a fresh engine for this graph returns. *)
Definition disconnected_distances : gmap node dist :=
  <["B" := Fin 1]> (initial_distances disconnected_graph "A").

Definition disconnected_trace : list step :=
  [visit_node "A" (initial_distances disconnected_graph "A") {["A"]};
   relax_edge "A" "B" 1 disconnected_distances;
   visit_node "B" disconnected_distances ({["B"]} ∪ {["A"]})].

(** [{A: {B: 2, Z: 1}, B: {}}]: the edge to [Z] dangles. *)
Definition dangling_graph : gmap node (list (node * Z)) :=
  <["A" := [("B", 2); ("Z", 1)]]> (<["B" := []]> ∅).

(** The states at which the test of the [while] loop is evaluated. *)
Inductive loop_head (g : gmap node (list (node * Z))) (st0 : state)
    : state → Prop :=
| loop_head_first : loop_head g st0 st0
| loop_head_next st st' :
    loop_head g st0 st →
    iteration g st = Some (Normal st') →
    loop_head g st0 st'.

(** A state, an outcome and a result with [t0] put before the trace. *)
Definition with_prefix (t0 : list step) (st : state) : state :=
  {| distances := distances st; visited := visited st;
     priority_queue := priority_queue st; trace := t0 ++ trace st |}.

Definition outcome_prefix (t0 : list step) (o : outcome) : outcome :=
  match o with
  | Normal st => Normal (with_prefix t0 st)
  | Raised e st => Raised e (with_prefix t0 st)
  end.

Definition state_of (o : outcome) : state :=
  match o with
  | Normal st => st
  | Raised _ st => st
  end.

(** ** Paths and shortest distances *)

(** [path g s v d]: the graph has a path from [s] to [v] of total weight
    [d]. *)
Inductive path (g : gmap node (list (node * Z))) (s : node)
    : node → Z → Prop :=
| path_nil : path g s s 0
| path_snoc u d items v w :
    path g s u d →
    g !! u = Some items →
    (v, w) ∈ items →
    path g s v (d + w).

Definition reachable (g : gmap node (list (node * Z))) (s v : node) : Prop :=
  ∃ d, path g s v d.

(** [d] is the weight of a path to [v] and no path to [v] is lighter. *)
Definition shortest (g : gmap node (list (node * Z))) (s v : node) (d : Z)
    : Prop :=
  path g s v d ∧ ∀ d', path g s v d' → d <= d'.

(** The contract of the input graph: no negative weight, and no edge to
    a node that is not a key. *)
Definition nonnegative (g : gmap node (list (node * Z))) : Prop :=
  map_Forall (λ _ items, Forall (λ item : node * Z, 0 <= item.2) items) g.

Definition closed (g : gmap node (list (node * Z))) : Prop :=
  map_Forall (λ _ items, Forall (λ item : node * Z, item.1 ∈ dom g) items) g.

#[global] Instance nonnegative_dec g : Decision (nonnegative g).
Proof. unfold nonnegative. apply _. Defined.

#[global] Instance closed_dec g : Decision (closed g).
Proof. unfold closed. apply _. Defined.

(** ** Reading a trace *)

(** The nodes of the [visit_node] events, in order. *)
Definition visits (t : list step) : list node :=
  omap (λ e, match e with visit_node u _ _ => Some u | _ => None end) t.

(** The [visited_nodes] of the [visit_node] events, in order. *)
Definition visited_sets (t : list step) : list (gset node) :=
  omap (λ e, match e with visit_node _ _ V => Some V | _ => None end) t.

(** The successive contents of the distance table that a trace shows:
    the table the loop starts from, then the snapshot of each event. *)
Definition tables (D0 : gmap node dist) (t : list step)
    : list (gmap node dist) :=
  D0 :: (snapshot <$> t).

(** ** Invariants and vocabulary of the proofs *)

(** Two states that differ at most in the order in which the queue holds
    its entries, and two outcomes in such states. *)
Definition same_bag (st st' : state) : Prop :=
  distances st = distances st' ∧ visited st = visited st' ∧
  trace st = trace st' ∧ priority_queue st ≡ₚ priority_queue st'.

Definition outcome_same_bag (o o' : outcome) : Prop :=
  match o, o' with
  | Normal st, Normal st' => same_bag st st'
  | Raised e st, Raised e' st' => e = e' ∧ same_bag st st'
  | _, _ => False
  end.

(** What the caller gets from the way the loop ends. *)
Definition result_of (o : outcome) : result :=
  match o with
  | Normal st => Returns (distances st) (trace st)
  | Raised e _ => Raises e
  end.

(** ** What a run records

    [history g D0 t D V]: starting from the table [D0] with nothing
    visited, the events [t] are a possible record of the loop, which has
    brought the table to [D] and the visited set to [V]. Each constructor
    is one of the two places where the source appends to [self.steps]. *)
Inductive history (g : gmap node (list (node * Z))) (D0 : gmap node dist)
    : list step → gmap node dist → gset node → Prop :=
| history_nil : history g D0 [] D0 ∅
| history_visit t D V u d :
    history g D0 t D V →
    u ∉ V →
    D !! u = Some (Fin d) →
    history g D0 (t ++ [visit_node u D ({[u]} ∪ V)]) D ({[u]} ∪ V)
| history_relax t D V u items v w du old :
    history g D0 t D V →
    u ∈ V →
    v ∉ V →
    g !! u = Some items →
    (v, w) ∈ items →
    D !! u = Some (Fin du) →
    D !! v = Some old →
    dist_lt (Fin (du + w)) old →
    history g D0
      (t ++ [relax_edge u v (du + w) (<[v := Fin (du + w)]> D)])
      (<[v := Fin (du + w)]> D) V.

(** What one event says about the table [Dprev] that it found. *)
Definition event_ok (g : gmap node (list (node * Z)))
    (Dprev : gmap node dist) (e : step) : Prop :=
  match e with
  | visit_node _ D _ => D = Dprev
  | relax_edge u v upd D =>
      ∃ items w du old,
        g !! u = Some items ∧ (v, w) ∈ items ∧
        Dprev !! u = Some (Fin du) ∧ D !! u = Some (Fin du) ∧
        upd = du + w ∧
        Dprev !! v = Some old ∧ dist_lt (Fin upd) old ∧
        D = <[v := Fin upd]> Dprev
  end.

(** [D'] is pointwise at most [D], on the same nodes. *)
Definition table_le (D' D : gmap node dist) : Prop :=
  ∀ v d, D !! v = Some d → ∃ d', D' !! v = Some d' ∧ dist_le d' d.

(** The edge [u → v] of weight [w] is not tense: the table cannot be
    improved along it. *)
Definition edge_ok (D : gmap node dist) (u v : node) (w : Z) : Prop :=
  ∃ du dv, D !! u = Some (Fin du) ∧ D !! v = Some (Fin dv) ∧ dv <= du + w.

(** The part of the graph whose nodes are still to be visited. *)
Definition remaining (g : gmap node (list (node * Z))) (V : gset node)
    : gmap node (list (node * Z)) :=
  filter (λ kv, kv.1 ∉ V) g.

(** What shrinks with every turn of the loop. *)
Definition measure (g : gmap node (list (node * Z))) (st : state) : nat :=
  (length (priority_queue st) + edge_count (remaining g (visited st)))%nat.

(** A call that reports its error before it has changed the engine: it
    raises and leaves [self.steps] as it found it. *)
Definition reports_before_mutation (self : engine) (start_node : node)
    : Prop :=
  ∃ e, run self start_node = Some (Raises e, self).

(** The invariant of [run] that holds at every point of the loop, for
    every graph. *)
Record inv (g : gmap node (list (node * Z))) (start_node : node)
    (steps0 : list step) (st : state) : Prop := Inv {
  inv_history :
    ∃ new, trace st = steps0 ++ new ∧
      history g (initial_distances g start_node) new
        (distances st) (visited st);
  inv_queue_ub :
    ∀ d u, (d, u) ∈ priority_queue st →
      ∃ d', distances st !! u = Some (Fin d') ∧ d' <= d;
  inv_queue_has :
    ∀ u d, u ∉ visited st → distances st !! u = Some (Fin d) →
      (d, u) ∈ priority_queue st;
  inv_dom : dom (distances st) = {[start_node]} ∪ dom g;
  inv_visited_fin :
    ∀ u, u ∈ visited st → ∃ d, distances st !! u = Some (Fin d);
  inv_path :
    ∀ v d, distances st !! v = Some (Fin d) → path g start_node v d;
  inv_start :
    ∃ d, distances st !! start_node = Some (Fin d) ∧ d <= 0
}.

(** What holds in addition whenever the test of the loop is evaluated:
    no edge out of a visited node is tense, and no visited node is
    farther than a queue entry. *)
Record head_inv (g : gmap node (list (node * Z))) (st : state)
    : Prop := HeadInv {
  hd_done :
    ∀ u items v w, u ∈ visited st → g !! u = Some items → (v, w) ∈ items →
      edge_ok (distances st) u v w;
  hd_le :
    ∀ u du d x, u ∈ visited st → distances st !! u = Some (Fin du) →
      (d, x) ∈ priority_queue st → du <= d
}.

(** What holds while the items of [cur], popped at distance [cd], are
    being relaxed. *)
Record relaxing (g : gmap node (list (node * Z))) (start_node : node)
    (steps0 : list step) (cur : node) (cd : Z) (st : state)
    : Prop := Relaxing {
  rx_inv : inv g start_node steps0 st;
  rx_cur : cur ∈ visited st;
  rx_dist : distances st !! cur = Some (Fin cd);
  rx_done :
    ∀ u items v w, u ∈ visited st → u ≠ cur → g !! u = Some items →
      (v, w) ∈ items → edge_ok (distances st) u v w;
  rx_le :
    ∀ u du, u ∈ visited st → distances st !! u = Some (Fin du) → du <= cd;
  rx_queue : ∀ d x, (d, x) ∈ priority_queue st → cd <= d
}.


(** [{A: {B: 2}, B: {A: -5}}]: a cycle of negative weight through the
    start node [A]. *)
Definition negative_cycle_graph : gmap node (list (node * Z)) :=
  <["A" := [("B", 2)]]> (<["B" := [("A", -5)]]> ∅).

(** The [relax_edge] events of a trace, as pairs of source and
    destination, in order. *)
Definition relaxations (t : list step) : list (node * node) :=
  omap (λ e, match e with
             | relax_edge u v _ _ => Some (u, v)
             | visit_node _ _ _ => None
             end) t.

(** The event is a [relax_edge] out of [cur]. *)
Definition relaxes_from (cur : node) (e : step) : Prop :=
  match e with
  | relax_edge u _ _ _ => u = cur
  | visit_node _ _ _ => False
  end.

(** In the trace [t], every [relax_edge] event is out of the node of the
    [visit_node] event that comes last before it. *)
Definition grouped (t : list step) : Prop :=
  ∀ i u v upd D, t !! i = Some (relax_edge u v upd D) →
    last (visits (take i t)) = Some u.

(** In the table [D], the distances of the nodes [vs] do not decrease
    along the list. *)
Definition sorted_visits (D : gmap node dist) (vs : list node) : Prop :=
  ∀ i j ui uj di dj, (i ≤ j)%nat →
    vs !! i = Some ui → vs !! j = Some uj →
    D !! ui = Some (Fin di) → D !! uj = Some (Fin dj) → di <= dj.

(** A result with [t0] put before the trace that it returns. *)
Definition result_prefix (t0 : list step) (r : result) : result :=
  match r with
  | Returns D t => Returns D (t0 ++ t)
  | Raises e => Raises e
  end.

(** At a loop head, every edge out of a visited node leads to a node with
    a finite entry. *)
Definition head_finite (g : gmap node (list (node * Z))) (st : state)
    : Prop :=
  ∀ u items v w, u ∈ visited st → g !! u = Some items → (v, w) ∈ items →
    ∃ d, distances st !! v = Some (Fin d).



(** The relaxations that the design document asks for after the visit of
    [cur], written from its words: for every item whose neighbour is not
    in the visited set [X], the candidate is the entry of [cur] in the
    table plus the weight; if it is strictly below the entry of the
    neighbour, the entry is replaced and a [relax_edge] event with the new
    table is recorded; otherwise nothing happens. A neighbour without an
    entry ends the list: the call raises there. *)
Fixpoint expected_relaxations (cur : node) (X : gset node)
    (items : list (node * Z)) (D : gmap node dist) : list step :=
  match items with
  | [] => []
  | (v, w) :: items' =>
      if decide (v ∈ X) then expected_relaxations cur X items' D
      else
        match D !! cur, D !! v with
        | Some (Fin dc), Some old =>
            if lt_dist (dc + w) old then
              let D' := <[v := Fin (dc + w)]> D in
              relax_edge cur v (dc + w) D'
                :: expected_relaxations cur X items' D'
            else expected_relaxations cur X items' D
        | _, _ => []
        end
  end.

(** In the trace [t], the events that follow a [visit_node] event, up to
    the next one or to the end, are the relaxations that the design
    document asks for. *)
Definition blocks_as_expected (g : gmap node (list (node * Z)))
    (t : list step) : Prop :=
  ∀ i cur D X items,
    t !! i = Some (visit_node cur D X) →
    g !! cur = Some items →
    ∃ rest,
      drop (S i) t = expected_relaxations cur X items D ++ rest ∧
      (rest = [] ∨ ∃ u' D' X' rest', rest = visit_node u' D' X' :: rest').

(** With the table [Dnow], no edge out of a node that the trace [t] has
    visited, to a neighbour that was not visited then, can still improve
    on the distance that the node had at its visit. *)
Definition nothing_left_to_relax (g : gmap node (list (node * Z)))
    (t : list step) (Dnow : gmap node dist) : Prop :=
  ∀ i cur D X items v w,
    t !! i = Some (visit_node cur D X) →
    g !! cur = Some items →
    (v, w) ∈ items →
    v ∉ X →
    ∃ dc dv, D !! cur = Some (Fin dc) ∧ Dnow !! v = Some (Fin dv) ∧
             dv <= dc + w.

(** ** The run as a Python runtime performs it

    Two things in [run] are left to the runtime: how [heapq] lays the
    queue out in its list, and in which order [list(visited)] lists the
    set. Here both are given by the runtime, the set is kept as the
    sequence of its [add]s, and the [visited_nodes] of an event is a list,
    as it is in Python. *)
Inductive listed_step : Type :=
| listed_visit_node (current_node : node) (distances : gmap node dist)
    (visited_nodes : list node)
| listed_relax_edge (from to : node) (updated_distance : Z)
    (distances : gmap node dist).

(** [rt_list adds] is what [list(s)] gives for the set [s] built from
    [set()] by adding the nodes [adds], in this order. *)
Record runtime : Type := Runtime {
  rt_heappush : list entry → entry → list entry;
  rt_heappop : list entry → option (entry * list entry);
  rt_list : list node → list node
}.

(** The local variables of [run] and [self.steps], for a fresh engine. *)
Record rt_state : Type := RtState {
  rt_distances : gmap node dist;
  rt_visited : list node;
  rt_queue : list entry;
  rt_trace : list listed_step
}.

Inductive rt_outcome : Type :=
| RtNormal (st : rt_state)
| RtRaised (e : exn) (st : rt_state).

Inductive rt_result : Type :=
| RtReturns (final_distances : gmap node dist)
    (execution_steps : list listed_step)
| RtRaises (e : exn).

(** The body of the [for neighbor, weight in ...items()] loop. *)
Definition relax_on (rt : runtime) (current_node : node)
    (current_distance : Z) (st : rt_state) (item : node * Z) : rt_outcome :=
  let '(neighbor, weight) := item in
  if decide (neighbor ∈ rt_visited st) then RtNormal st
  else
    let new_distance := current_distance + weight in
    match rt_distances st !! neighbor with
    | None => RtRaised (KeyError neighbor) st
    | Some old =>
        if lt_dist new_distance old then
          let distances' :=
            <[neighbor := Fin new_distance]> (rt_distances st) in
          RtNormal {| rt_distances := distances';
                      rt_visited := rt_visited st;
                      rt_queue :=
                        rt_heappush rt (rt_queue st) (new_distance, neighbor);
                      rt_trace := rt_trace st ++
                        [listed_relax_edge current_node neighbor new_distance
                           distances'] |}
        else RtNormal st
    end.

Fixpoint relax_edges_on (rt : runtime) (current_node : node)
    (current_distance : Z) (items : list (node * Z)) (st : rt_state)
    : rt_outcome :=
  match items with
  | [] => RtNormal st
  | item :: items' =>
      match relax_on rt current_node current_distance st item with
      | RtNormal st' =>
          relax_edges_on rt current_node current_distance items' st'
      | RtRaised e st' => RtRaised e st'
      end
  end.

(** One turn of [while priority_queue:]; [None] when the queue is
    empty. *)
Definition iteration_on (rt : runtime) (g : gmap node (list (node * Z)))
    (st : rt_state) : option rt_outcome :=
  match rt_heappop rt (rt_queue st) with
  | None => None
  | Some ((current_distance, current_node), q') =>
      if decide (current_node ∈ rt_visited st) then
        Some (RtNormal {| rt_distances := rt_distances st;
                          rt_visited := rt_visited st;
                          rt_queue := q'; rt_trace := rt_trace st |})
      else
        let visited' := rt_visited st ++ [current_node] in
        let st1 :=
          {| rt_distances := rt_distances st;
             rt_visited := visited';
             rt_queue := q';
             rt_trace := rt_trace st ++
               [listed_visit_node current_node (rt_distances st)
                  (rt_list rt visited')] |} in
        match g !! current_node with
        | None => Some (RtRaised (KeyError current_node) st1)
        | Some items =>
            Some (relax_edges_on rt current_node current_distance items st1)
        end
  end.

Fixpoint while_loop_on (fuel : nat) (rt : runtime)
    (g : gmap node (list (node * Z))) (st : rt_state) : option rt_outcome :=
  match fuel with
  | O => None
  | S fuel' =>
      match iteration_on rt g st with
      | None => Some (RtNormal st)
      | Some (RtNormal st') => while_loop_on fuel' rt g st'
      | Some (RtRaised e st') => Some (RtRaised e st')
      end
  end.

Definition rt_initial_state (g : gmap node (list (node * Z)))
    (start_node : node) : rt_state :=
  {| rt_distances := initial_distances g start_node;
     rt_visited := [];
     rt_queue := [(0, start_node)];
     rt_trace := [] |}.

Definition rt_result_of (o : rt_outcome) : rt_result :=
  match o with
  | RtNormal st => RtReturns (rt_distances st) (rt_trace st)
  | RtRaised e _ => RtRaises e
  end.

(** [DijkstraVisualizer(g).run(start_node)] on the runtime [rt]. *)
Definition run_on (rt : runtime) (g : gmap node (list (node * Z)))
    (start_node : node) : option rt_result :=
  rt_result_of <$>
    while_loop_on (enough_fuel g) rt g (rt_initial_state g start_node).

(** What [run] relies on: the documented behaviour of [heapq] on the
    lists that satisfy its heap invariant [heap]. The list
    [[(0, start_node)]] is a heap, [heappush] and [heappop] keep the
    invariant, [heappush] adds its item, and [heappop] takes out an item
    that is least in the order of tuples and fails on the empty list
    only. *)
Record conforms (rt : runtime) (heap : list entry → Prop) : Prop := Conforms {
  cf_singleton : ∀ x, heap [x];
  cf_push_heap : ∀ q x, heap q → heap (rt_heappush rt q x);
  cf_push_bag : ∀ q x, heap q → rt_heappush rt q x ≡ₚ x :: q;
  cf_pop_None : ∀ q, heap q → rt_heappop rt q = None → q = [];
  cf_pop_heap : ∀ q m r, heap q → rt_heappop rt q = Some (m, r) → heap r;
  cf_pop_bag : ∀ q m r, heap q → rt_heappop rt q = Some (m, r) → q ≡ₚ m :: r;
  cf_pop_least :
    ∀ q m r y, heap q → rt_heappop rt q = Some (m, r) → y ∈ q → entry_le m y
}.

(** [list(s)] lists the elements of [s], each once. *)
Definition lists_elements (rt : runtime) : Prop :=
  ∀ adds, NoDup adds → rt_list rt adds ≡ₚ adds.

(** The events [t] with every visited set listed by [listing], [adds]
    being the nodes added to the set before [t]. *)
Fixpoint render (listing : list node → list node) (adds : list node)
    (t : list step) : list listed_step :=
  match t with
  | [] => []
  | visit_node u D _ :: t' =>
      listed_visit_node u D (listing (adds ++ [u]))
        :: render listing (adds ++ [u]) t'
  | relax_edge u v d D :: t' =>
      listed_relax_edge u v d D :: render listing adds t'
  end.

Definition render_result (listing : list node → list node) (r : result)
    : rt_result :=
  match r with
  | Returns D t => RtReturns D (render listing [] t)
  | Raises e => RtRaises e
  end.

(** An event and a result with every [visited_nodes] read as a set. *)
Definition as_set (e : listed_step) : step :=
  match e with
  | listed_visit_node u D l => visit_node u D (list_to_set l)
  | listed_relax_edge u v d D => relax_edge u v d D
  end.

Definition as_sets (r : rt_result) : result :=
  match r with
  | RtReturns D t => Returns D (as_set <$> t)
  | RtRaises e => Raises e
  end.

(** A runtime whose heap is an unordered list searched at each pop, and
    which lists a set in the order of the additions; one that pushes at
    the other end of the list; and one that lists a set in the opposite
    order. *)
Definition list_runtime : runtime :=
  {| rt_heappush := heappush; rt_heappop := heappop; rt_list := id |}.

Definition append_runtime : runtime :=
  {| rt_heappush := λ q x, q ++ [x]; rt_heappop := heappop; rt_list := id |}.

Definition reverse_runtime : runtime :=
  {| rt_heappush := heappush; rt_heappop := heappop; rt_list := reverse |}.

(** [{S: {B: 1, A: 1}, A: {}, B: {}}]: from [S], the nodes [B] and [A]
    enter the queue in this order, at the same distance. *)
Definition tie_graph : gmap node (list (node * Z)) :=
  <["S" := [("B", 1); ("A", 1)]]> (<["A" := []]> (<["B" := []]> ∅)).

(** The events of a call from [S] on a fresh engine for it: [A] is
    visited before [B]. *)
Definition tie_trace : list step :=
  let D0 := initial_distances tie_graph "S" in
  let D1 := <["B" := Fin 1]> D0 in
  let D2 := <["A" := Fin 1]> D1 in
  [visit_node "S" D0 {["S"]};
   relax_edge "S" "B" 1 D1;
   relax_edge "S" "A" 1 D2;
   visit_node "A" D2 {["S"; "A"]};
   visit_node "B" D2 {["S"; "A"; "B"]}].

(** The node of a [visit_node] event was, when it was popped, least among
    the nodes not yet visited that had a finite entry: least by the entry,
    and by the identifier among those of equal entry. *)
Definition popped_least (e : step) : Prop :=
  match e with
  | visit_node u D X =>
      ∀ x dx, x ∉ X → D !! x = Some (Fin dx) →
        ∃ du, D !! u = Some (Fin du) ∧ (du < dx ∨ (du = dx ∧ node_le u x))
  | relax_edge _ _ _ _ => True
  end.

(** The runtime state [st'] and the state [st] of the model are at the
    same point of the same run. *)
Record same_point (rt : runtime) (heap : list entry → Prop)
    (st' : rt_state) (st : state) : Prop := SamePoint {
  sp_distances : rt_distances st' = distances st;
  sp_adds : rt_visited st' = visits (trace st);
  sp_visited : visited st = list_to_set (rt_visited st');
  sp_heap : heap (rt_queue st');
  sp_queue : rt_queue st' ≡ₚ priority_queue st;
  sp_trace : rt_trace st' = render (rt_list rt) [] (trace st)
}.

Definition outcome_same_point (rt : runtime) (heap : list entry → Prop)
    (o' : rt_outcome) (o : outcome) : Prop :=
  match o', o with
  | RtNormal st', Normal st => same_point rt heap st' st
  | RtRaised e' st', Raised e st => e' = e ∧ same_point rt heap st' st
  | _, _ => False
  end.

(** ** The heap *)

Lemma node_le_alt a b : node_le a b ↔ a = b ∨ String_as_OT.lt a b.
Proof.
  unfold node_le.
  destruct (String_as_OT.compare_spec a b) as [Heq|Hlt|Hgt].
  - split; [by left | done].
  - split; [by right | done].
  - split; [done | intros [->|Hlt] _].
    + by apply (StrictOrder_Irreflexive b).
    + apply (StrictOrder_Irreflexive a). by transitivity b.
Qed.

Lemma node_le_refl a : node_le a a.
Proof. apply node_le_alt. now left. Qed.

Lemma node_le_trans a b c : node_le a b → node_le b c → node_le a c.
Proof.
  rewrite !node_le_alt. intros [->|Hab] [->|Hbc]; auto.
  right. now transitivity b.
Qed.

Lemma node_ltb_false a b : node_ltb a b = false → node_le b a.
Proof.
  unfold node_ltb. intros H. apply node_le_alt.
  destruct (String_as_OT.compare_spec a b); auto; discriminate.
Qed.

Lemma node_ltb_true a b : node_ltb a b = true → node_le a b.
Proof.
  unfold node_ltb, node_le. destruct (String_as_OT.compare a b); congruence.
Qed.

Lemma entry_le_refl (x : Z * node) : entry_le x x.
Proof. right. split; [done | apply node_le_refl]. Qed.

Lemma entry_le_trans (x y z : Z * node) :
  entry_le x y → entry_le y z → entry_le x z.
Proof.
  unfold entry_le. intros [Hxy|[Hxy Hn]] [Hyz|[Hyz Hn']]; try (left; lia).
  right. split; [lia|]. eapply node_le_trans; eauto.
Qed.

Lemma entry_ltb_true (x y : Z * node) : entry_ltb x y = true → entry_le x y.
Proof.
  unfold entry_ltb, entry_le. intros H.
  apply orb_true_iff in H as [H|H].
  - left. lia.
  - apply andb_true_iff in H as [H1 H2]. right. split; [lia|].
    now apply node_ltb_true.
Qed.

Lemma entry_ltb_false (x y : Z * node) : entry_ltb x y = false → entry_le y x.
Proof.
  unfold entry_ltb, entry_le. intros H.
  apply orb_false_iff in H as [H1 H2].
  apply andb_false_iff in H2 as [H2|H2].
  - left. lia.
  - destruct (decide (y.1 = x.1)) as [Heq|Hne]; [|left; lia].
    right. split; [done|]. now apply node_ltb_false.
Qed.

Lemma entry_le_fst (x y : Z * node) : entry_le x y → x.1 <= y.1.
Proof. unfold entry_le. lia. Qed.

Lemma heappop_None q : heappop q = None ↔ q = [].
Proof.
  destruct q as [|x q]; simpl; [done|].
  destruct (heappop q) as [[m r]|]; [|done].
  destruct (entry_ltb m x); done.
Qed.

(** [heappop] takes one entry out of the bag. *)
Lemma heappop_perm q m r : heappop q = Some (m, r) → q ≡ₚ m :: r.
Proof.
  revert m r. induction q as [|x q IH]; intros m r; simpl; [done|].
  destruct (heappop q) as [[m' r']|] eqn:Hq.
  - destruct (entry_ltb m' x); intros [= <- <-]; [|done].
    rewrite (IH m' r' eq_refl). apply Permutation_swap.
  - apply heappop_None in Hq as ->. by intros [= <- <-].
Qed.

(** The entry it takes is the least in Python's tuple order. *)
Lemma heappop_least q m r y : heappop q = Some (m, r) → y ∈ q → entry_le m y.
Proof.
  revert m r y. induction q as [|x q IH]; intros m r y; simpl; [done|].
  destruct (heappop q) as [[m' r']|] eqn:Hq.
  - destruct (entry_ltb m' x) eqn:Hlt; intros [= <- <-] Hy.
    + apply elem_of_cons in Hy as [->|Hy]; [by apply entry_ltb_true|].
      by apply (IH m' r').
    + apply elem_of_cons in Hy as [->|Hy]; [apply entry_le_refl|].
      eapply entry_le_trans; [by apply entry_ltb_false|].
      by apply (IH m' r').
  - apply heappop_None in Hq as ->. intros [= <- <-] Hy.
    apply list_elem_of_singleton in Hy as ->. apply entry_le_refl.
Qed.

Lemma heappop_elem q m r : heappop q = Some (m, r) → m ∈ q.
Proof. intros H. rewrite (heappop_perm _ _ _ H). apply elem_of_cons. by left. Qed.

Lemma heappop_rest q m r y : heappop q = Some (m, r) → y ∈ r → y ∈ q.
Proof.
  intros H Hy. rewrite (heappop_perm _ _ _ H). apply elem_of_cons. by right.
Qed.

Lemma heappop_length q m r : heappop q = Some (m, r) → length q = S (length r).
Proof. intros H. by rewrite (heappop_perm _ _ _ H). Qed.


Lemma lt_dist_spec z d : lt_dist z d = true ↔ dist_lt (Fin z) d.
Proof. destruct d; simpl; [lia | done]. Qed.

Lemma lt_dist_false z d : lt_dist z d = false ↔ dist_le d (Fin z).
Proof. destruct d; simpl; [lia | done]. Qed.

Section single_run.

Variable g : gmap node (list (node * Z)).
Variable start_node : node.
Variable steps0 : list step.

Lemma initial_distances_lookup v d :
  initial_distances g start_node !! v = Some (Fin d) →
  v = start_node ∧ d = 0.
Proof.
  unfold initial_distances. intros H.
  apply lookup_insert_Some in H as [[<- [= <-]]|[_ H]]; [done|].
  rewrite lookup_fmap in H. destruct (g !! v); done.
Qed.

Lemma inv_initial :
  inv g start_node steps0 (initial_state {| graph := g; steps := steps0 |} start_node).
Proof.
  split; simpl.
  - exists []. split; [by rewrite app_nil_r | constructor].
  - intros d u Hin. apply list_elem_of_singleton in Hin as [= -> ->].
    exists 0. split; [|done]. apply lookup_insert_eq.
  - intros u d _ H. apply initial_distances_lookup in H as [-> ->].
    by apply list_elem_of_singleton.
  - unfold initial_distances. by rewrite dom_insert_L, dom_fmap_L.
  - set_solver.
  - intros v d H. apply initial_distances_lookup in H as [-> ->].
    constructor.
  - exists 0. split; [apply lookup_insert_eq | done].
Qed.

(** The popped distance of a node that is not yet visited is its entry
    in the table. *)
Lemma popped_distance st cd cur q' :
  inv g start_node steps0 st →
  heappop (priority_queue st) = Some ((cd, cur), q') →
  cur ∉ visited st →
  distances st !! cur = Some (Fin cd).
Proof.
  intros Hinv Hpop Hcur.
  destruct (inv_queue_ub _ _ _ _ Hinv cd cur) as (d' & Hd' & Hle);
    [by eapply heappop_elem|].
  pose proof (inv_queue_has _ _ _ _ Hinv cur d' Hcur Hd') as Hin.
  pose proof (heappop_least _ _ _ _ Hpop Hin) as Hmin.
  apply entry_le_fst in Hmin. simpl in Hmin.
  rewrite Hd'. do 2 f_equal. lia.
Qed.

Lemma inv_discard st x q' :
  inv g start_node steps0 st →
  heappop (priority_queue st) = Some (x, q') →
  x.2 ∈ visited st →
  inv g start_node steps0 {| distances := distances st; visited := visited st;
         priority_queue := q'; trace := trace st |}.
Proof.
  intros Hinv Hpop Hx. destruct Hinv as [Hh Hub Hhas Hdom Hfin Hpath Hst].
  split; simpl; try done.
  - intros d u Hin. apply Hub. by eapply heappop_rest.
  - intros u d Hu HD. specialize (Hhas u d Hu HD).
    rewrite (heappop_perm _ _ _ Hpop) in Hhas.
    apply elem_of_cons in Hhas as [Heq|Hhas]; [|done].
    subst x. simpl in Hx. done.
Qed.

Lemma inv_visit st cd cur q' :
  inv g start_node steps0 st →
  heappop (priority_queue st) = Some ((cd, cur), q') →
  cur ∉ visited st →
  inv g start_node steps0 {| distances := distances st;
         visited := {[cur]} ∪ visited st;
         priority_queue := q';
         trace := trace st ++
           [visit_node cur (distances st) ({[cur]} ∪ visited st)] |}.
Proof.
  intros Hinv Hpop Hcur.
  pose proof (popped_distance _ _ _ _ Hinv Hpop Hcur) as HD.
  destruct Hinv as [(new & Ht & Hh) Hub Hhas Hdom Hfin Hpath Hst].
  split; simpl; try done.
  - eexists. split; [by rewrite Ht, <- app_assoc|]. by econstructor.
  - intros d u Hin. apply Hub. by eapply heappop_rest.
  - intros u d Hu HDu.
    assert (u ≠ cur ∧ u ∉ visited st) as [Hne Hu'] by set_solver.
    specialize (Hhas u d Hu' HDu).
    rewrite (heappop_perm _ _ _ Hpop) in Hhas.
    apply elem_of_cons in Hhas as [[= _ ?]|Hhas]; [done|done].
  - intros u Hu. apply elem_of_union in Hu as [Hu|Hu]; [|by apply Hfin].
    apply elem_of_singleton in Hu as ->. by exists cd.
Qed.

Lemma inv_relax st cur cd items item :
  inv g start_node steps0 st →
  cur ∈ visited st →
  distances st !! cur = Some (Fin cd) →
  g !! cur = Some items →
  item ∈ items →
  inv g start_node steps0 (state_of (relax cur cd st item)).
Proof.
  intros Hinv Hcur HD Hg Hitem. destruct item as [v w]. unfold relax.
  destruct (decide (v ∈ visited st)) as [Hv|Hv]; [done|].
  destruct (distances st !! v) as [old|] eqn:Hold; [|done].
  destruct (lt_dist (cd + w) old) eqn:Hlt; [|done].
  apply lt_dist_spec in Hlt.
  destruct Hinv as [(new & Ht & Hh) Hub Hhas Hdom Hfin Hpath Hst].
  split; simpl.
  - eexists. split; [by rewrite Ht, <- app_assoc|].
    by eapply history_relax.
  - intros d u Hin. apply elem_of_cons in Hin as [[= -> ->]|Hin].
    + exists (cd + w). by rewrite lookup_insert_eq.
    + destruct (Hub d u Hin) as (d' & Hd' & Hle).
      destruct (decide (u = v)) as [->|Hne].
      * exists (cd + w). rewrite lookup_insert_eq. split; [done|].
        rewrite Hd' in Hold. injection Hold as <-. simpl in Hlt. lia.
      * exists d'. by rewrite lookup_insert_ne.
  - intros u d Hu HDu. apply elem_of_cons.
    apply lookup_insert_Some in HDu as [[<- [= <-]]|[Hne HDu]]; [by left|].
    right. by apply Hhas.
  - rewrite dom_insert_L, <- Hdom.
    assert (v ∈ dom (distances st)) by (apply elem_of_dom; eauto).
    set_solver.
  - intros u Hu. destruct (Hfin u Hu) as [d Hd]. exists d.
    rewrite lookup_insert_ne; [done|]. by intros <-.
  - intros x d Hx.
    apply lookup_insert_Some in Hx as [[<- [= <-]]|[Hne Hx]]; [|by apply Hpath].
    eapply path_snoc; eauto.
  - destruct Hst as (d & Hd & Hle).
    destruct (decide (v = start_node)) as [->|Hne].
    + exists (cd + w). rewrite lookup_insert_eq. split; [done|].
      rewrite Hd in Hold. injection Hold as <-. simpl in Hlt. lia.
    + exists d. by rewrite lookup_insert_ne.
Qed.

(** What the loop over the items leaves alone. *)
Lemma relax_frame st cur cd item :
  let st' := state_of (relax cur cd st item) in
  visited st' = visited st ∧
  (∀ u, u ∈ visited st → distances st' !! u = distances st !! u).
Proof.
  destruct item as [v w]. unfold relax.
  destruct (decide (v ∈ visited st)) as [Hv|Hv]; [done|].
  destruct (distances st !! v) as [old|] eqn:Hold; [|done].
  destruct (lt_dist (cd + w) old) eqn:Hlt; [|done].
  simpl. split; [done|]. intros u Hu.
  rewrite lookup_insert_ne; [done|]. by intros <-.
Qed.

Lemma relax_edges_frame cur cd its st :
  let st' := state_of (relax_edges cur cd its st) in
  visited st' = visited st ∧
  (∀ u, u ∈ visited st → distances st' !! u = distances st !! u).
Proof.
  revert st. induction its as [|item its IH]; intros st; simpl; [done|].
  pose proof (relax_frame st cur cd item) as [HV HD].
  destruct (relax cur cd st item) as [st1|e st1]; simpl in *; [|done].
  destruct (IH st1) as [HV' HD']. split; [congruence|].
  intros u Hu. rewrite HD' by congruence. by apply HD.
Qed.

Lemma inv_relax_edges cur cd items its st :
  inv g start_node steps0 st →
  cur ∈ visited st →
  distances st !! cur = Some (Fin cd) →
  g !! cur = Some items →
  its ⊆ items →
  inv g start_node steps0 (state_of (relax_edges cur cd its st)).
Proof.
  revert st. induction its as [|item its IH]; intros st Hinv Hcur HD Hg Hsub;
    simpl; [done|].
  pose proof (inv_relax st cur cd items item Hinv Hcur HD Hg) as Hinv'.
  pose proof (relax_frame st cur cd item) as [HV HD'].
  destruct (relax cur cd st item) as [st1|e st1]; simpl in *.
  - apply IH; [apply Hinv'; set_solver | congruence | | done | set_solver].
    by rewrite HD'.
  - apply Hinv'. set_solver.
Qed.

Lemma inv_iteration st o :
  inv g start_node steps0 st → iteration g st = Some o → inv g start_node steps0 (state_of o).
Proof.
  intros Hinv. unfold iteration.
  destruct (heappop (priority_queue st)) as [[[cd cur] q']|] eqn:Hpop; [|done].
  destruct (decide (cur ∈ visited st)) as [Hcur|Hcur].
  - intros [= <-]. simpl. by apply (inv_discard st (cd, cur)).
  - pose proof (inv_visit _ _ _ _ Hinv Hpop Hcur) as Hinv1.
    pose proof (popped_distance _ _ _ _ Hinv Hpop Hcur) as HD.
    destruct (g !! cur) as [items|] eqn:Hg; intros [= <-]; [|done].
    apply (inv_relax_edges cur cd items); simpl; try done. set_solver.
Qed.

Lemma inv_loop_head st :
  loop_head g (initial_state {| graph := g; steps := steps0 |} start_node) st →
  inv g start_node steps0 st.
Proof.
  induction 1 as [|st st' _ IH Hit]; [apply inv_initial|].
  apply (inv_iteration st (Normal st') IH Hit).
Qed.

End single_run.

(** ** The loop and its heads *)

Lemma iteration_None g st : iteration g st = None ↔ priority_queue st = [].
Proof.
  unfold iteration. rewrite <- heappop_None.
  destruct (heappop (priority_queue st)) as [[[cd cur] q']|]; [|done].
  destruct (decide (cur ∈ visited st)); [done|].
  destruct (g !! cur); done.
Qed.

Lemma while_loop_mono g fuel fuel' st o :
  while_loop fuel g st = Some o → (fuel ≤ fuel')%nat →
  while_loop fuel' g st = Some o.
Proof.
  revert fuel' st. induction fuel as [|fuel IH]; intros fuel' st; [done|].
  destruct fuel' as [|fuel']; [lia|]. simpl.
  destruct (iteration g st) as [[st'|e st']|]; try done.
  intros H Hle. apply IH; [done | lia].
Qed.

(** Where the loop stops normally, the queue is empty. *)
Lemma while_loop_normal g st0 fuel st st' :
  loop_head g st0 st →
  while_loop fuel g st = Some (Normal st') →
  loop_head g st0 st' ∧ priority_queue st' = [].
Proof.
  revert st. induction fuel as [|fuel IH]; intros st Hhead; [done|]. simpl.
  destruct (iteration g st) as [[st1|e st1]|] eqn:Hit; try done.
  - apply IH. by eapply loop_head_next.
  - intros [= <-]. split; [done|]. by apply iteration_None in Hit.
Qed.

(** Where it stops by an exception, one turn of the loop raised it. *)
Lemma while_loop_raised g st0 fuel st e st' :
  loop_head g st0 st →
  while_loop fuel g st = Some (Raised e st') →
  ∃ sth, loop_head g st0 sth ∧ iteration g sth = Some (Raised e st').
Proof.
  revert st. induction fuel as [|fuel IH]; intros st Hhead; [done|]. simpl.
  destruct (iteration g st) as [[st1|e1 st1]|] eqn:Hit; try done.
  - apply IH. by eapply loop_head_next.
  - intros [= <- <-]. by exists st.
Qed.

(** *** Termination *)

Lemma edge_count_delete (g : gmap node (list (node * Z))) k items :
  g !! k = Some items →
  edge_count g = (length items + edge_count (delete k g))%nat.
Proof.
  intros Hk. unfold edge_count.
  rewrite <- (map_to_list_delete g k items Hk). done.
Qed.

Lemma remaining_visit (g : gmap node (list (node * Z))) V cur :
  remaining g ({[cur]} ∪ V) = delete cur (remaining g V).
Proof.
  unfold remaining. apply map_eq. intros k.
  destruct (decide (k = cur)) as [->|Hne].
  - rewrite lookup_delete_eq. apply map_lookup_filter_None. right.
    intros x _. simpl. set_solver.
  - rewrite lookup_delete_ne by done.
    destruct (g !! k) as [x|] eqn:Hk.
    + destruct (decide (k ∈ V)) as [HV|HV].
      * rewrite (proj2 (map_lookup_filter_None _ g k)),
          (proj2 (map_lookup_filter_None _ g k)); [done| |];
          right; intros y _; simpl; set_solver.
      * rewrite (map_lookup_filter_Some_2 _ g k x),
          (map_lookup_filter_Some_2 _ g k x); try done; simpl; set_solver.
    + rewrite (proj2 (map_lookup_filter_None _ g k)),
        (proj2 (map_lookup_filter_None _ g k)); [done| |]; by left.
Qed.

Lemma remaining_empty (g : gmap node (list (node * Z))) : remaining g ∅ = g.
Proof.
  unfold remaining. apply map_filter_id. intros k x _. simpl. set_solver.
Qed.

Lemma relax_queue_length cur cd st item :
  (length (priority_queue (state_of (relax cur cd st item)))
   ≤ S (length (priority_queue st)))%nat.
Proof.
  destruct item as [v w]. unfold relax.
  destruct (decide (v ∈ visited st)); [simpl; lia|].
  destruct (distances st !! v) as [old|]; [|simpl; lia].
  destruct (lt_dist (cd + w) old); simpl; lia.
Qed.

Lemma relax_edges_queue_length cur cd its st :
  (length (priority_queue (state_of (relax_edges cur cd its st)))
   ≤ length its + length (priority_queue st))%nat.
Proof.
  revert st. induction its as [|item its IH]; intros st; simpl; [lia|].
  pose proof (relax_queue_length cur cd st item) as H1.
  destruct (relax cur cd st item) as [st1|e st1]; simpl in *; [|lia].
  specialize (IH st1). lia.
Qed.

Lemma relax_edges_visited cur cd its st :
  visited (state_of (relax_edges cur cd its st)) = visited st.
Proof.
  revert st. induction its as [|item its IH]; intros st; simpl; [done|].
  pose proof (relax_frame st cur cd item) as [HV _].
  destruct (relax cur cd st item) as [st1|e st1]; simpl in *; [|done].
  by rewrite IH.
Qed.

Lemma iteration_measure g st st' :
  iteration g st = Some (Normal st') → (measure g st' < measure g st)%nat.
Proof.
  unfold iteration, measure.
  destruct (heappop (priority_queue st)) as [[[cd cur] q']|] eqn:Hpop; [|done].
  apply heappop_length in Hpop.
  destruct (decide (cur ∈ visited st)) as [Hcur|Hcur].
  - intros [= <-]. simpl. lia.
  - destruct (g !! cur) as [items|] eqn:Hg; [|done].
    intros [= Hre].
    match type of Hre with relax_edges _ _ _ ?s = _ =>
      pose proof (relax_edges_queue_length cur cd items s) as Hq;
      pose proof (relax_edges_visited cur cd items s) as HV;
      rewrite Hre in Hq, HV; simpl in Hq, HV
    end.
    rewrite HV, remaining_visit.
    rewrite (edge_count_delete (remaining g (visited st)) cur items).
    + lia.
    + by apply map_lookup_filter_Some_2.
Qed.

(** The loop always ends, by an empty queue or by an exception, whatever
    the graph. *)
Lemma while_loop_total g fuel st :
  (measure g st < fuel)%nat → is_Some (while_loop fuel g st).
Proof.
  revert st. induction fuel as [|fuel IH]; intros st Hm; [lia|]. simpl.
  destruct (iteration g st) as [[st'|e st']|] eqn:Hit; [|done|done].
  apply IH. apply iteration_measure in Hit. lia.
Qed.

Lemma run_fuel_total fuel self start_node :
  (enough_fuel (graph self) ≤ fuel)%nat →
  is_Some (run_fuel fuel self start_node).
Proof.
  intros Hle. unfold run_fuel. apply fmap_is_Some, while_loop_total.
  unfold measure, enough_fuel in *. simpl. rewrite remaining_empty. lia.
Qed.

Lemma run_fuel_enough fuel self start_node :
  (enough_fuel (graph self) ≤ fuel)%nat →
  run_fuel fuel self start_node = run self start_node.
Proof.
  intros Hle. unfold run, run_fuel.
  destruct (run_fuel_total (enough_fuel (graph self)) self start_node)
    as [x Hx]; [done|].
  unfold run_fuel in Hx. apply fmap_Some in Hx as (o & Ho & ->).
  by rewrite Ho, (while_loop_mono _ _ fuel _ _ Ho Hle).
Qed.

(** ** Graphs within the contract *)

Lemma edge_ok_insert D u v w x n old :
  x ≠ u →
  D !! x = Some old →
  dist_lt (Fin n) old →
  edge_ok D u v w →
  edge_ok (<[x := Fin n]> D) u v w.
Proof.
  intros Hne Hold Hlt (du & dv & Hu & Hv & Hle).
  exists du. destruct (decide (v = x)) as [->|Hvx].
  - exists n. rewrite lookup_insert_ne, lookup_insert_eq by done.
    repeat split; try done. rewrite Hv in Hold. injection Hold as <-.
    simpl in Hlt. lia.
  - exists dv. by rewrite !lookup_insert_ne by done.
Qed.

Section within_contract.

Variable g : gmap node (list (node * Z)).
Variable start_node : node.
Variable steps0 : list step.
Hypothesis Hnonneg :
  ∀ u items v w, g !! u = Some items → (v, w) ∈ items → 0 <= w.
Hypothesis Hclosed :
  ∀ u items v w, g !! u = Some items → (v, w) ∈ items → v ∈ dom g.
Hypothesis Hstart : start_node ∈ dom g.

Lemma relax_within cur cd items st v w :
  relaxing g start_node steps0 cur cd st →
  g !! cur = Some items →
  (v, w) ∈ items →
  ∃ st', relax cur cd st (v, w) = Normal st' ∧
    relaxing g start_node steps0 cur cd st' ∧
    edge_ok (distances st') cur v w ∧
    (∀ x y, edge_ok (distances st) cur x y →
            edge_ok (distances st') cur x y).
Proof.
  intros Hrx Hg Hin.
  pose proof (inv_relax g start_node steps0 st cur cd items (v, w)
    (rx_inv _ _ _ _ _ _ Hrx) (rx_cur _ _ _ _ _ _ Hrx) (rx_dist _ _ _ _ _ _ Hrx) Hg Hin) as Hinv'.
  pose proof Hrx as [Hinv Hcur HD Hdone Hle Hq].
  assert (0 <= w) as Hw by (by eapply Hnonneg).
  revert Hinv'. unfold relax.
  destruct (decide (v ∈ visited st)) as [Hv|Hv].
  { intros _. exists st. split_and!; try done.
    destruct (inv_visited_fin _ _ _ _ Hinv v Hv) as [dv Hdv].
    exists cd, dv. split_and!; try done.
    specialize (Hle v dv Hv Hdv). lia. }
  assert (is_Some (distances st !! v)) as [old Hold].
  { apply elem_of_dom. rewrite (inv_dom _ _ _ _ Hinv).
    apply elem_of_union_r. by eapply Hclosed. }
  rewrite Hold.
  destruct (lt_dist (cd + w) old) eqn:Hlt.
  - apply lt_dist_spec in Hlt. simpl. intros Hinv'.
    assert (v ≠ cur) as Hne by (by intros ->).
    eexists. split_and!; [done| | |].
    + split; simpl; try done.
      * by rewrite lookup_insert_ne.
      * intros u its x y Hu Hucur Hgu Hxy.
        apply (edge_ok_insert _ _ _ _ _ _ old); try done; [by intros ->|].
        by eapply Hdone.
      * intros u du Hu. rewrite lookup_insert_ne by (by intros ->).
        by apply Hle.
      * intros d x Hx. apply elem_of_cons in Hx as [[= -> ->]|Hx]; [lia|].
        by eapply Hq.
    + exists cd, (cd + w). simpl.
      rewrite lookup_insert_ne, lookup_insert_eq by done. done.
    + intros x y. simpl. by apply (edge_ok_insert _ _ _ _ _ _ old).
  - apply lt_dist_false in Hlt. intros _. exists st.
    split_and!; try done.
    destruct old as [dv|]; [|done]. by exists cd, dv.
Qed.

Lemma relax_edges_within cur cd items its st :
  relaxing g start_node steps0 cur cd st →
  g !! cur = Some items →
  its ⊆ items →
  ∃ st', relax_edges cur cd its st = Normal st' ∧
    relaxing g start_node steps0 cur cd st' ∧
    (∀ v w, (v, w) ∈ its → edge_ok (distances st') cur v w) ∧
    (∀ x y, edge_ok (distances st) cur x y →
            edge_ok (distances st') cur x y).
Proof.
  revert st. induction its as [|[v w] its IH]; intros st Hrx Hg Hsub;
    cbn [relax_edges].
  { exists st. split_and!; try done.
    intros v w Hin. by apply elem_of_nil in Hin. }
  destruct (relax_within cur cd items st v w Hrx Hg) as (st1 & -> & Hrx1 & Hvw & Hkeep1);
    [set_solver|].
  destruct (IH st1 Hrx1 Hg) as (st2 & -> & Hrx2 & Hits & Hkeep2); [set_solver|].
  exists st2. split_and!; try done.
  - intros x y Hin. apply elem_of_cons in Hin as [[= -> ->]|Hin]; auto.
  - auto.
Qed.

(** Within the contract a turn of the loop never raises, and it keeps
    the invariant of the loop heads. *)
Lemma iteration_within st o :
  inv g start_node steps0 st →
  head_inv g st →
  iteration g st = Some o →
  ∃ st', o = Normal st' ∧ head_inv g st'.
Proof.
  intros Hinv [Hdone Hle]. unfold iteration.
  destruct (heappop (priority_queue st)) as [[[cd cur] q']|] eqn:Hpop; [|done].
  destruct (decide (cur ∈ visited st)) as [Hcur|Hcur].
  { intros [= <-]. eexists. split; [done|]. split; simpl; [done|].
    intros u du d x Hu HD Hx. eapply Hle; eauto. by eapply heappop_rest. }
  pose proof (popped_distance _ _ _ _ _ _ _ Hinv Hpop Hcur) as HD.
  assert (is_Some (g !! cur)) as [items Hg].
  { apply elem_of_dom.
    assert (cur ∈ dom (distances st)) as Hd by (apply elem_of_dom; eauto).
    rewrite (inv_dom _ _ _ _ Hinv) in Hd. set_solver. }
  rewrite Hg. intros [= <-].
  match goal with |- context [relax_edges _ _ _ ?s] => set (st1 := s) end.
  assert (relaxing g start_node steps0 cur cd st1) as Hrx.
  { split; simpl.
    - by eapply inv_visit.
    - set_solver.
    - done.
    - intros u its v w Hu Hne. apply Hdone. set_solver.
    - intros u du Hu HDu. apply elem_of_union in Hu as [Hu|Hu].
      + apply elem_of_singleton in Hu as ->. rewrite HD in HDu.
        injection HDu as <-. lia.
      + eapply Hle; eauto. by eapply heappop_elem.
    - intros d x Hx.
      assert ((d, x) ∈ priority_queue st) as Hx' by (by eapply heappop_rest).
      apply (entry_le_fst (cd, cur) (d, x)). by eapply heappop_least. }
  destruct (relax_edges_within cur cd items items st1 Hrx Hg)
    as (st2 & -> & [Hinv2 Hcur2 HD2 Hdone2 Hle2 Hq2] & Hits & _); [done|].
  exists st2. split; [done|]. split.
  - intros u its v w Hu Hgu Hvw.
    destruct (decide (u = cur)) as [->|Hne]; [|by eapply Hdone2].
    rewrite Hg in Hgu. injection Hgu as <-. by apply Hits.
  - intros u du d x Hu HDu Hx. specialize (Hle2 u du Hu HDu).
    specialize (Hq2 d x Hx). lia.
Qed.

Lemma head_inv_initial :
  head_inv g (initial_state {| graph := g; steps := steps0 |} start_node).
Proof. split; simpl; set_solver. Qed.

Lemma loop_head_within st :
  loop_head g (initial_state {| graph := g; steps := steps0 |} start_node) st →
  head_inv g st.
Proof.
  induction 1 as [|st st' Hhead IH Hit]; [apply head_inv_initial|].
  apply inv_loop_head in Hhead.
  destruct (iteration_within st _ Hhead IH Hit) as (? & [= <-] & ?). done.
Qed.

(** When the queue is empty, the table is a fixpoint of relaxation, so
    it bounds the weight of every path from below. *)
Lemma final_lower_bound st v p :
  inv g start_node steps0 st →
  head_inv g st →
  priority_queue st = [] →
  path g start_node v p →
  v ∈ visited st ∧ ∃ dv, distances st !! v = Some (Fin dv) ∧ dv <= p.
Proof.
  intros Hinv Hhd Hq.
  assert (∀ u d, distances st !! u = Some (Fin d) → u ∈ visited st) as Hvis.
  { intros u d Hd. destruct (decide (u ∈ visited st)) as [|Hu]; [done|].
    pose proof (inv_queue_has _ _ _ _ Hinv u d Hu Hd) as Hin.
    rewrite Hq in Hin. by apply elem_of_nil in Hin. }
  induction 1 as [|u d items v w Hp IH Hg Hvw].
  - destruct (inv_start _ _ _ _ Hinv) as (d & Hd & Hle). eauto.
  - destruct IH as (Hu & du & Hdu & Hle).
    destruct (hd_done _ _ Hhd u items v w Hu Hg Hvw) as (du' & dv & Hdu' & Hdv & Hle').
    rewrite Hdu in Hdu'. injection Hdu' as <-.
    split; [by eapply Hvis|]. exists dv. split; [done | lia].
Qed.

End within_contract.

(** ** Reading a history *)

Lemma dist_le_refl d : dist_le d d.
Proof. destruct d; simpl; [lia | done]. Qed.

Lemma dist_le_trans a b c : dist_le a b → dist_le b c → dist_le a c.
Proof. destruct a, b, c; simpl; try done. lia. Qed.

Lemma dist_lt_le a b : dist_lt a b → dist_le a b.
Proof. destruct a, b; simpl; try done. lia. Qed.

Lemma table_le_refl D : table_le D D.
Proof. intros v d Hd. exists d. split; [done | apply dist_le_refl]. Qed.

Lemma table_le_trans D1 D2 D3 :
  table_le D1 D2 → table_le D2 D3 → table_le D1 D3.
Proof.
  intros H12 H23 v d Hd. destruct (H23 v d Hd) as (d2 & Hd2 & Hle2).
  destruct (H12 v d2 Hd2) as (d1 & Hd1 & Hle1).
  exists d1. split; [done|]. by eapply dist_le_trans.
Qed.

Lemma event_ok_table_le g Dprev e :
  event_ok g Dprev e → table_le (snapshot e) Dprev.
Proof.
  destruct e as [u D V|u v upd D]; simpl.
  - intros ->. apply table_le_refl.
  - intros (items & w & du & old & _ & _ & _ & _ & _ & Hold & Hlt & ->) x d Hx.
    destruct (decide (x = v)) as [->|Hne].
    + exists (Fin upd). rewrite lookup_insert_eq. split; [done|].
      rewrite Hold in Hx. injection Hx as <-. by apply dist_lt_le.
    + exists d. rewrite lookup_insert_ne by done.
      split; [done | apply dist_le_refl].
Qed.

Lemma visits_snoc t e :
  visits (t ++ [e]) =
  visits t ++ match e with visit_node u _ _ => [u] | _ => [] end.
Proof. unfold visits. rewrite omap_app. by destruct e. Qed.

Lemma visited_sets_snoc t e :
  visited_sets (t ++ [e]) =
  visited_sets t ++ match e with visit_node _ _ V => [V] | _ => [] end.
Proof. unfold visited_sets. rewrite omap_app. by destruct e. Qed.

Lemma tables_snoc D0 t e : tables D0 (t ++ [e]) = tables D0 t ++ [snapshot e].
Proof. unfold tables. by rewrite fmap_app. Qed.

Lemma length_tables D0 t : length (tables D0 t) = S (length t).
Proof. unfold tables. simpl. by rewrite length_fmap. Qed.

Lemma length_visited_sets t : length (visited_sets t) = length (visits t).
Proof.
  induction t as [|e t IH]; [done|].
  unfold visited_sets, visits in *. destruct e; simpl; auto.
Qed.

Section history_facts.

Variable g : gmap node (list (node * Z)).
Variable D0 : gmap node dist.

(** The table that a history has reached is the last one it shows. *)
Lemma history_last t D V :
  history g D0 t D V → tables D0 t !! length t = Some D.
Proof.
  induction 1 as [|t D V u d _ IH _ _|t D V u items v w du old _ IH];
    [done| |];
    rewrite tables_snoc, lookup_app_r, length_tables, length_app;
    rewrite ?length_tables, ?length_app; simpl; try lia;
    by replace (length t + 1 - S (length t))%nat with 0%nat by lia.
Qed.

(** The nodes of the visit events are the visited set, without
    repetition. *)
Lemma history_visits t D V :
  history g D0 t D V → NoDup (visits t) ∧ V = list_to_set (visits t).
Proof.
  induction 1 as [|t D V u d _ [IHn ->] Hu _|t D V u items v w du old _ IH];
    rewrite ?visits_snoc, ?app_nil_r; try done.
  - split; [constructor | done].
  - split.
    + apply NoDup_app. split_and!; [done| |apply NoDup_singleton].
      intros x Hx Hx'. apply list_elem_of_singleton in Hx' as ->.
      apply Hu. by apply elem_of_list_to_set.
    + rewrite list_to_set_app_L. simpl. set_solver.
Qed.

(** The set that the [i]-th visit event records holds the nodes of the
    visit events up to it. *)
Lemma history_sets t D V i S :
  history g D0 t D V →
  visited_sets t !! i = Some S →
  S = list_to_set (take (Datatypes.S i) (visits t)).
Proof.
  intros H. revert i S.
  induction H as [|t D V u d H IH Hu _|t D V u items v w du old _ IH];
    intros i S; rewrite ?visits_snoc, ?visited_sets_snoc, ?app_nil_r;
    try done; [|by apply IH].
  intros Hi. apply lookup_app_Some in Hi as [Hi|[Hle Hi]].
  - rewrite take_app_le; [by apply IH|].
    apply lookup_lt_Some in Hi. rewrite length_visited_sets in Hi. lia.
  - apply list_lookup_singleton_Some in Hi as [Hi <-].
    rewrite length_visited_sets in *.
    rewrite take_ge by (rewrite length_app; simpl; lia).
    rewrite list_to_set_app_L. simpl.
    destruct (history_visits _ _ _ H) as [_ ->]. set_solver.
Qed.

(** Every event found the table that the events before it had left, and
    is one of the two updates of the source. *)
Lemma history_event t D V i e :
  history g D0 t D V →
  t !! i = Some e →
  ∃ Dprev, tables D0 t !! i = Some Dprev ∧ event_ok g Dprev e.
Proof.
  intros H. revert i e.
  induction H as [|t D V u d H IH Hu _|t D V u items v w du old H IH];
    intros i e Hi; [done| |];
    pose proof (history_last _ _ _ H) as Hlast;
    rewrite tables_snoc;
    (apply lookup_app_Some in Hi as [Hi|[Hle Hi]];
     [destruct (IH i e Hi) as (Dp & HDp & Hok); exists Dp;
      split; [by apply lookup_app_l_Some | done]
     |apply list_lookup_singleton_Some in Hi as [Hi <-];
      assert (i = length t) as -> by lia;
      exists D; split; [by apply lookup_app_l_Some|]]).
  - done.
  - simpl. exists items, w, du, old. split_and!; try done.
    rewrite lookup_insert_ne; [done|]. by intros <-.
Qed.

(** The tables that a history shows never grow. *)
Lemma history_monotone t D V i j Di Dj :
  history g D0 t D V →
  (i ≤ j)%nat →
  tables D0 t !! i = Some Di →
  tables D0 t !! j = Some Dj →
  table_le Dj Di.
Proof.
  intros H Hij Hi. revert Dj.
  induction Hij as [|j Hij IH]; intros Dj Hj.
  - rewrite Hi in Hj. injection Hj as <-. apply table_le_refl.
  - assert (is_Some (tables D0 t !! j)) as [Dj' Hj'].
    { apply lookup_lt_is_Some. apply lookup_lt_Some in Hj. lia. }
    eapply table_le_trans; [|by apply IH].
    unfold tables in Hj. simpl in Hj.
    apply list_lookup_fmap_Some in Hj as (e & -> & He).
    destruct (history_event _ _ _ _ _ H He) as (Dp & HDp & Hok).
    rewrite Hj' in HDp. injection HDp as <-.
    by eapply event_ok_table_le.
Qed.

Lemma history_dom t D V : history g D0 t D V → dom D = dom D0.
Proof.
  induction 1 as [|t D V u d _ IH _ _|t D V u items v w du old _ IH];
    try done.
  rewrite dom_insert_L, <- IH.
  assert (v ∈ dom D) by (apply elem_of_dom; eauto). set_solver.
Qed.

End history_facts.

Lemma nonnegative_edge g u items v w :
  nonnegative g → g !! u = Some items → (v, w) ∈ items → 0 <= w.
Proof.
  intros Hg Hu Hin. specialize (Hg u items Hu). simpl in Hg.
  rewrite Forall_forall in Hg. apply (Hg (v, w) Hin).
Qed.

Lemma closed_edge g u items v w :
  closed g → g !! u = Some items → (v, w) ∈ items → v ∈ dom g.
Proof.
  intros Hg Hu Hin. specialize (Hg u items Hu). simpl in Hg.
  rewrite Forall_forall in Hg. apply (Hg (v, w) Hin).
Qed.

(** ** From the loop to [run] *)

Lemma run_unfold self start_node r self' :
  run self start_node = Some (r, self') →
  ∃ o, while_loop (enough_fuel (graph self)) (graph self)
         (initial_state self start_node) = Some o ∧
       r = result_of o ∧
       self' = {| graph := graph self; steps := trace (state_of o) |}.
Proof.
  unfold run, run_fuel. intros H. apply fmap_Some in H as (o & Ho & Hf).
  exists o. split; [done|]. destruct o; simpl in Hf; by injection Hf as -> ->.
Qed.

Lemma run_total self start_node : is_Some (run self start_node).
Proof. by apply run_fuel_total. Qed.

(** Whatever way the loop ends, the invariant holds where it ends. *)
Lemma while_loop_inv self start_node fuel o :
  while_loop fuel (graph self) (initial_state self start_node) = Some o →
  inv (graph self) start_node (steps self) (state_of o).
Proof.
  destruct self as [g steps0]. simpl. intros H. destruct o as [st|e st].
  - eapply while_loop_normal in H as [Hhead _]; [|constructor].
    by apply inv_loop_head.
  - eapply while_loop_raised in H as (sth & Hhead & Hit); [|constructor].
    apply inv_loop_head in Hhead.
    apply (inv_iteration _ _ _ _ _ Hhead Hit).
Qed.

(** A call appends its events to [self.steps], and they are a history of
    the loop. *)
Lemma run_history self start_node r self' :
  run self start_node = Some (r, self') →
  ∃ new D V,
    self' = {| graph := graph self; steps := steps self ++ new |} ∧
    history (graph self) (initial_distances (graph self) start_node) new D V ∧
    (∀ D' t, r = Returns D' t → D' = D ∧ t = steps self ++ new).
Proof.
  intros H. apply run_unfold in H as (o & Ho & -> & ->).
  destruct (inv_history _ _ _ _ (while_loop_inv _ _ _ _ Ho))
    as (new & Ht & Hh).
  exists new, (distances (state_of o)), (visited (state_of o)).
  rewrite Ht. split_and!; try done.
  intros D' t. destruct o; simpl; [|done]. intros [= <- <-]. done.
Qed.

(** Within the contract the call returns, and the loop head at which it
    leaves the loop has an empty queue. *)
Lemma run_returns self start_node :
  nonnegative (graph self) →
  closed (graph self) →
  start_node ∈ dom (graph self) →
  ∃ st,
    loop_head (graph self) (initial_state self start_node) st ∧
    priority_queue st = [] ∧
    run self start_node =
      Some (Returns (distances st) (trace st),
            {| graph := graph self; steps := trace st |}).
Proof.
  intros Hnn Hcl Hstart.
  destruct (run_total self start_node) as [[r self'] Hrun].
  destruct (run_unfold _ _ _ _ Hrun) as (o & Ho & -> & ->).
  rewrite Hrun. destruct self as [g steps0]. cbn [graph steps] in *.
  destruct o as [st|e st]; simpl.
  - eapply while_loop_normal in Ho as [Hhead Hq]; [|constructor]. eauto.
  - eapply while_loop_raised in Ho as (sth & Hhead & Hit); [|constructor].
    pose proof (inv_loop_head _ _ _ _ Hhead) as Hinv.
    pose proof (loop_head_within g start_node steps0
      (λ u items v w, nonnegative_edge g u items v w Hnn)
      (λ u items v w, closed_edge g u items v w Hcl) Hstart _ Hhead) as Hhd.
    destruct (iteration_within g start_node steps0
      (λ u items v w, nonnegative_edge g u items v w Hnn)
      (λ u items v w, closed_edge g u items v w Hcl) Hstart _ _ Hinv Hhd Hit)
      as (? & [=] & _).
Qed.

(** ** The scenarios of the design document *)

(** On the example graph the nodes are visited by increasing distance. *)
Example example_visit_order :
  (λ p, visits (steps p.2)) <$> run (init example_graph) "A" =
  Some ["A"; "C"; "B"; "D"].
Proof. vm_compute. reflexivity. Qed.

(** A graph of one node: one [visit_node] event and no [relax_edge]. *)
Example single_node_run :
  run (init (<["A" := []]> ∅)) "A" =
  Some (Returns (<["A" := Fin 0]> ∅)
          [visit_node "A" (<["A" := Fin 0]> ∅) {["A"]}],
        {| graph := <["A" := []]> ∅;
           steps := [visit_node "A" (<["A" := Fin 0]> ∅) {["A"]}] |}).
Proof. vm_compute. reflexivity. Qed.

(** The disconnected graph: [C] stays at infinity and is not visited. *)
Example disconnected_run :
  run (init disconnected_graph) "A" =
  Some (Returns disconnected_distances disconnected_trace,
        {| graph := disconnected_graph; steps := disconnected_trace |}) ∧
  disconnected_distances !! "C" = Some Inf.
Proof. split; vm_compute; reflexivity. Qed.

(** ** The properties of [run] *)

(** C1. On a graph with non-negative weights whose edges all lead to keys,
    from a start node that is a key, [run] returns a table that maps every
    node reachable from the start to the weight of a shortest path and
    every other node to infinity, and no such other node is the node of a
    [visit_node] event or a member of a recorded visited set. On the
    example graph of the docstring, from [A], the table is
    [{A: 0, B: 3, C: 1, D: 8}]. *)
Theorem run_shortest_distances :
  (∀ self start_node,
     nonnegative (graph self) →
     closed (graph self) →
     start_node ∈ dom (graph self) →
     ∃ D new,
       run self start_node =
         Some (Returns D (steps self ++ new),
               {| graph := graph self; steps := steps self ++ new |}) ∧
       dom D = dom (graph self) ∧
       (∀ v, reachable (graph self) start_node v →
          ∃ d, D !! v = Some (Fin d) ∧ shortest (graph self) start_node v d) ∧
       (∀ v, v ∈ dom (graph self) →
          ¬ reachable (graph self) start_node v →
          D !! v = Some Inf ∧ (v ∉ visits new) ∧
          (∀ X, X ∈ visited_sets new → v ∉ X))) ∧
  (∃ t, run (init example_graph) "A" =
          Some (Returns example_distances t,
                {| graph := example_graph; steps := t |})).
Proof.
  split; [|eexists; vm_compute; reflexivity].
  intros self start_node Hnn Hcl Hstart.
  destruct (run_returns self start_node Hnn Hcl Hstart)
    as (st & Hhead & Hq & Hrun).
  destruct self as [g steps0]. cbn [graph steps] in *.
  pose proof (inv_loop_head _ _ _ _ Hhead) as Hinv.
  pose proof (loop_head_within g start_node steps0
    (λ u items v w, nonnegative_edge g u items v w Hnn)
    (λ u items v w, closed_edge g u items v w Hcl) Hstart _ Hhead) as Hhd.
  destruct (inv_history _ _ _ _ Hinv) as (new & Ht & Hh).
  assert (dom (distances st) = dom g) as Hdom.
  { rewrite (inv_dom _ _ _ _ Hinv). set_solver. }
  assert (∀ v, v ∈ visited st → reachable g start_node v) as Hreach.
  { intros v Hv. destruct (inv_visited_fin _ _ _ _ Hinv v Hv) as [d Hd].
    exists d. by eapply inv_path. }
  exists (distances st), new. rewrite Hrun, Ht. split_and!; try done.
  - intros v [p Hp].
    destruct (final_lower_bound g start_node steps0 st v p Hinv Hhd Hq Hp)
      as (_ & dv & Hdv & _).
    exists dv. split; [done|]. split; [by eapply inv_path|].
    intros d' Hd'.
    destruct (final_lower_bound g start_node steps0 st v d' Hinv Hhd Hq Hd')
      as (_ & dv' & Hdv' & Hle).
    rewrite Hdv in Hdv'. by injection Hdv' as <-.
  - intros v Hv Hnr.
    destruct (history_visits _ _ _ _ _ Hh) as [_ HV].
    split_and!.
    + rewrite <- Hdom in Hv. apply elem_of_dom in Hv as [[d|] Hd]; [|done].
      destruct Hnr. exists d. by eapply inv_path.
    + intros Hin. apply Hnr, Hreach. rewrite HV.
      by apply elem_of_list_to_set.
    + intros X HX Hin. apply list_elem_of_lookup in HX as [i Hi].
      rewrite (history_sets _ _ _ _ _ _ _ Hh Hi) in Hin.
      apply elem_of_list_to_set in Hin.
      apply Hnr, Hreach. rewrite HV. apply elem_of_list_to_set.
      by eapply subseteq_take.
Qed.

Lemma run_shortest_distances_witness :
  ∃ D new,
    run (init disconnected_graph) "A" =
      Some (Returns D (steps (init disconnected_graph) ++ new),
            {| graph := disconnected_graph;
               steps := steps (init disconnected_graph) ++ new |}) ∧
    dom D = dom disconnected_graph ∧
    (∀ v, reachable disconnected_graph "A" v →
       ∃ d, D !! v = Some (Fin d) ∧ shortest disconnected_graph "A" v d) ∧
    (∀ v, v ∈ dom disconnected_graph →
       ¬ reachable disconnected_graph "A" v →
       D !! v = Some Inf ∧ (v ∉ visits new) ∧
       (∀ X, X ∈ visited_sets new → v ∉ X)).
Proof.
  apply (proj1 run_shortest_distances (init disconnected_graph) "A");
    apply (bool_decide_unpack _); vm_compute; exact I.
Defined.

(** C9. On a graph within the contract and from a start node that is a key,
    the loop reaches, in finitely many turns, a head at which the queue is
    empty, and [run] returns the table and the trace of that head; any
    amount of fuel from [enough_fuel] on gives this same result. *)
Theorem run_terminates self start_node :
  nonnegative (graph self) →
  closed (graph self) →
  start_node ∈ dom (graph self) →
  ∃ st,
    loop_head (graph self) (initial_state self start_node) st ∧
    priority_queue st = [] ∧
    iteration (graph self) st = None ∧
    run self start_node =
      Some (Returns (distances st) (trace st),
            {| graph := graph self; steps := trace st |}) ∧
    ∀ fuel, (enough_fuel (graph self) ≤ fuel)%nat →
      run_fuel fuel self start_node = run self start_node.
Proof.
  intros Hnn Hcl Hstart.
  destruct (run_returns self start_node Hnn Hcl Hstart)
    as (st & Hhead & Hq & Hrun).
  exists st. split_and!; [done | done | by apply iteration_None | done |].
  intros fuel Hfuel. by apply run_fuel_enough.
Qed.

Lemma run_terminates_witness :
  ∃ st,
    loop_head example_graph (initial_state (init example_graph) "A") st ∧
    priority_queue st = [] ∧
    iteration example_graph st = None ∧
    run (init example_graph) "A" =
      Some (Returns (distances st) (trace st),
            {| graph := example_graph; steps := trace st |}) ∧
    ∀ fuel, (enough_fuel example_graph ≤ fuel)%nat →
      run_fuel fuel (init example_graph) "A" = run (init example_graph) "A".
Proof.
  apply (run_terminates (init example_graph) "A");
    apply (bool_decide_unpack _); vm_compute; exact I.
Defined.

Lemma relax_edges_by_lookup_eq cur cd its st :
  cur ∈ visited st →
  distances st !! cur = Some (Fin cd) →
  relax_edges_by_lookup cur its st = relax_edges cur cd its st.
Proof.
  revert st. induction its as [|[v w] its IH]; intros st Hcur HD; [done|].
  cbn [relax_edges_by_lookup relax_edges].
  assert (relax_by_lookup cur st (v, w) = relax cur cd st (v, w)) as ->.
  { unfold relax_by_lookup, relax. by rewrite HD. }
  pose proof (relax_frame st cur cd (v, w)) as [HV HD'].
  destruct (relax cur cd st (v, w)) as [st1|e st1]; [|done].
  simpl in HV, HD'. apply IH; [congruence|]. by rewrite HD'.
Qed.

(** C10. At every head of the loop of a run, if the entry that [heappop]
    would take is for a node that is not yet visited, its distance is the
    entry of that node in the table; and the turn of the loop comes out the
    same when each candidate is computed from the table entry of the
    current node instead of the popped distance. *)
Theorem popped_distance_is_table_entry self start_node st cd cur q' :
  loop_head (graph self) (initial_state self start_node) st →
  heappop (priority_queue st) = Some ((cd, cur), q') →
  cur ∉ visited st →
  distances st !! cur = Some (Fin cd) ∧
  iteration_by_lookup (graph self) st = iteration (graph self) st.
Proof.
  destruct self as [g steps0]. cbn [graph]. intros Hhead Hpop Hcur.
  apply inv_loop_head in Hhead.
  pose proof (popped_distance _ _ _ _ _ _ _ Hhead Hpop Hcur) as HD.
  split; [done|]. unfold iteration_by_lookup, iteration. rewrite Hpop.
  destruct (decide (cur ∈ visited st)); [done|].
  destruct (g !! cur) as [items|]; [|done]. f_equal.
  apply relax_edges_by_lookup_eq; simpl; [set_solver | done].
Qed.

Lemma popped_distance_is_table_entry_witness :
  distances (initial_state (init example_graph) "A") !! "A" = Some (Fin 0) ∧
  iteration_by_lookup example_graph (initial_state (init example_graph) "A") =
  iteration example_graph (initial_state (init example_graph) "A").
Proof.
  apply (popped_distance_is_table_entry (init example_graph) "A" _ 0 "A" []).
  - apply loop_head_first.
  - reflexivity.
  - apply (bool_decide_unpack _). vm_compute. exact I.
Defined.

(** *** The trace of an engine that has run before *)

Lemma relax_prefix t0 cur cd st item :
  relax cur cd (with_prefix t0 st) item =
  outcome_prefix t0 (relax cur cd st item).
Proof.
  destruct item as [v w]. unfold relax. simpl.
  destruct (decide (v ∈ visited st)); [done|].
  destruct (distances st !! v) as [old|]; [|done].
  destruct (lt_dist (cd + w) old); [|done].
  simpl. unfold with_prefix. simpl. by rewrite app_assoc.
Qed.

Lemma relax_edges_prefix t0 cur cd its st :
  relax_edges cur cd its (with_prefix t0 st) =
  outcome_prefix t0 (relax_edges cur cd its st).
Proof.
  revert st. induction its as [|item its IH]; intros st; [done|].
  cbn [relax_edges]. rewrite relax_prefix.
  destruct (relax cur cd st item) as [st1|e st1]; simpl; [apply IH | done].
Qed.

Lemma iteration_prefix t0 g st :
  iteration g (with_prefix t0 st) = outcome_prefix t0 <$> iteration g st.
Proof.
  unfold iteration. simpl.
  destruct (heappop (priority_queue st)) as [[[cd cur] q']|]; [|done].
  destruct (decide (cur ∈ visited st)); [done|].
  destruct (g !! cur) as [items|]; simpl.
  - f_equal. rewrite <- relax_edges_prefix. f_equal.
    unfold with_prefix. simpl. by rewrite app_assoc.
  - do 2 f_equal. unfold with_prefix. simpl. by rewrite app_assoc.
Qed.

Lemma while_loop_prefix t0 g fuel st :
  while_loop fuel g (with_prefix t0 st) =
  outcome_prefix t0 <$> while_loop fuel g st.
Proof.
  revert st. induction fuel as [|fuel IH]; intros st; [done|].
  cbn [while_loop]. rewrite iteration_prefix.
  destruct (iteration g st) as [[st1|e st1]|]; simpl; [apply IH | done | done].
Qed.

(** A call on an engine that holds the events [t0] does what a call on a
    fresh engine does, with [t0] before the events. *)
Lemma run_prefix g t0 start_node o :
  while_loop (enough_fuel g) g (initial_state (init g) start_node) = Some o →
  run {| graph := g; steps := t0 |} start_node =
    Some (result_of (outcome_prefix t0 o),
          {| graph := g; steps := t0 ++ trace (state_of o) |}).
Proof.
  intros Ho. unfold run, run_fuel. cbn [graph].
  replace (initial_state {| graph := g; steps := t0 |} start_node)
    with (with_prefix t0 (initial_state (init g) start_node))
    by (unfold with_prefix, initial_state; simpl; by rewrite app_nil_r).
  rewrite while_loop_prefix, Ho. by destruct o.
Qed.

(** C7. [self.steps] is never cleared: after a first call on a fresh
    engine, a second call on the same engine returns the events of the
    first call followed by the events that the second call would have
    returned on a fresh engine, with the same distance table. *)
Theorem trace_accumulates g s1 r1 e1 s2 D2 t2 e2 :
  run (init g) s1 = Some (r1, e1) →
  run (init g) s2 = Some (Returns D2 t2, e2) →
  (∀ D1 t1, r1 = Returns D1 t1 → t1 = steps e1) ∧
  run e1 s2 =
    Some (Returns D2 (steps e1 ++ t2),
          {| graph := g; steps := steps e1 ++ t2 |}).
Proof.
  intros H1 H2.
  apply run_unfold in H1 as (o1 & _ & -> & ->).
  apply run_unfold in H2 as (o2 & Ho2 & Hr2 & ->).
  cbn [graph steps init] in *. split.
  - intros D1 t1. destruct o1; simpl; [|done]. by intros [= _ <-].
  - rewrite (run_prefix g _ s2 o2 Ho2).
    destruct o2 as [st2|e st2]; [|done]. simpl in *. by injection Hr2 as <- <-.
Qed.

Lemma trace_accumulates_witness :
  ∃ r1 e1 D2 t2,
    run (init example_graph) "A" = Some (r1, e1) ∧
    (∀ D1 t1, r1 = Returns D1 t1 → t1 = steps e1) ∧
    run e1 "B" =
      Some (Returns D2 (steps e1 ++ t2),
            {| graph := example_graph; steps := steps e1 ++ t2 |}).
Proof.
  do 4 eexists. split; [vm_compute; reflexivity|].
  eapply (trace_accumulates example_graph "A" _ _ "B");
    vm_compute; reflexivity.
Defined.

(** *** The order in which the queue holds its entries *)

Lemma node_le_antisym a b : node_le a b → node_le b a → a = b.
Proof.
  rewrite !node_le_alt. intros [?|Hab] [?|Hba]; try done.
  exfalso. apply (StrictOrder_Irreflexive a). by transitivity b.
Qed.

Lemma entry_le_antisym (x y : Z * node) : entry_le x y → entry_le y x → x = y.
Proof.
  destruct x as [d n], y as [d' n']. unfold entry_le. simpl.
  intros [H1|[H1 Hn]] [H2|[H2 Hn']]; try lia.
  f_equal; [done|]. by apply node_le_antisym.
Qed.

(** What [heappop] takes depends on the bag of entries alone, not on how
    the heap lays them out. *)
Lemma heappop_bag q q' m r :
  q ≡ₚ q' → heappop q = Some (m, r) →
  ∃ r', heappop q' = Some (m, r') ∧ r ≡ₚ r'.
Proof.
  intros Hperm Hpop.
  destruct (heappop q') as [[m' r']|] eqn:Hpop'.
  - assert (m = m') as <-.
    { apply entry_le_antisym.
      - eapply heappop_least; [done|]. rewrite Hperm. by eapply heappop_elem.
      - eapply heappop_least; [done|]. rewrite <- Hperm. by eapply heappop_elem. }
    exists r'. split; [done|]. apply (Permutation_cons_inv (a := m)).
    by rewrite <- (heappop_perm _ _ _ Hpop), <- (heappop_perm _ _ _ Hpop').
  - apply heappop_None in Hpop' as ->. apply Permutation_nil_r in Hperm as ->.
    done.
Qed.

Lemma relax_same_bag cur cd st st' item :
  same_bag st st' →
  outcome_same_bag (relax cur cd st item) (relax cur cd st' item).
Proof.
  intros (HD & HV & Ht & HQ). destruct item as [v w]. unfold relax.
  rewrite <- HD, <- HV.
  destruct (decide (v ∈ visited st)); [done|].
  destruct (distances st !! v) as [old|]; [|done].
  destruct (lt_dist (cd + w) old); [|done].
  simpl. unfold same_bag, heappush. simpl. by rewrite Ht, HQ.
Qed.

Lemma relax_edges_same_bag cur cd its st st' :
  same_bag st st' →
  outcome_same_bag (relax_edges cur cd its st) (relax_edges cur cd its st').
Proof.
  revert st st'. induction its as [|item its IH]; intros st st' H;
    cbn [relax_edges]; [done|].
  pose proof (relax_same_bag cur cd st st' item H) as H1.
  destruct (relax cur cd st item) as [st1|e1 st1],
    (relax cur cd st' item) as [st1'|e1' st1']; try done.
  by apply IH.
Qed.

Lemma iteration_same_bag g st st' :
  same_bag st st' →
  option_Forall2 outcome_same_bag (iteration g st) (iteration g st').
Proof.
  intros (HD & HV & Ht & HQ). unfold iteration.
  destruct (heappop (priority_queue st)) as [[[cd cur] q']|] eqn:Hpop.
  - destruct (heappop_bag _ _ _ _ HQ Hpop) as (r' & -> & Hr).
    rewrite <- HD, <- HV, <- Ht.
    destruct (decide (cur ∈ visited st)); [by constructor|].
    destruct (g !! cur) as [items|]; constructor; [|done].
    by apply relax_edges_same_bag.
  - apply heappop_None in Hpop. rewrite Hpop in HQ.
    apply Permutation_nil_l in HQ. rewrite <- HQ. constructor.
Qed.

Lemma while_loop_same_bag g fuel st st' :
  same_bag st st' →
  option_Forall2 outcome_same_bag (while_loop fuel g st) (while_loop fuel g st').
Proof.
  revert st st'. induction fuel as [|fuel IH]; intros st st' H;
    cbn [while_loop]; [constructor|].
  destruct (iteration_same_bag g st st' H) as [o o' Ho|];
    [|by constructor].
  destruct o as [st1|e1 st1], o' as [st1'|e1' st1']; try done.
  - by apply IH.
  - by constructor.
Qed.

(** *** A start node that is not a key *)

(** C5, as stated, fails: on the example graph, with the start node [Z]
    that is not a key, the call does not leave the engine as it found
    it. *)
Lemma unknown_start_mutates :
  ("Z" ∉ dom example_graph) ∧
  ¬ reports_before_mutation (init example_graph) "Z".
Proof.
  split; [apply (bool_decide_unpack _); vm_compute; exact I|].
  intros [e H]. vm_compute in H. discriminate H.
Qed.

(** C5, amended. With a start node that is not a key, [run] enters the
    start node in the distance table at distance 0, pops it, marks it
    visited and appends its [visit_node] event to [self.steps]; only then
    does the lookup of its adjacency raise [KeyError], in the first turn of
    the loop. *)
Theorem run_unknown_start self start_node :
  start_node ∉ dom (graph self) →
  run self start_node =
    Some (Raises (KeyError start_node),
          {| graph := graph self;
             steps := steps self ++
               [visit_node start_node
                  (initial_distances (graph self) start_node)
                  {[start_node]}] |}).
Proof.
  intros Hstart. apply not_elem_of_dom in Hstart.
  unfold run, run_fuel, enough_fuel. cbn [while_loop].
  unfold iteration. cbn [initial_state priority_queue heappop visited].
  destruct (decide (start_node ∈ (∅ : gset node))) as [Hin|_]; [set_solver|].
  rewrite Hstart. simpl. by rewrite (right_id_L ∅ (∪)).
Qed.

Lemma run_unknown_start_witness :
  run (init example_graph) "Z" =
    Some (Raises (KeyError "Z"),
          {| graph := example_graph;
             steps := [] ++
               [visit_node "Z" (initial_distances example_graph "Z")
                  {["Z"]}] |}).
Proof.
  apply (run_unknown_start (init example_graph) "Z").
  apply (bool_decide_unpack _). vm_compute. exact I.
Defined.

(** *** What the trace of one call shows *)

(** The events that a call adds are a history of the loop, from the
    initial table to the table where the loop ends. *)
Lemma run_new_history self start_node r self' new :
  run self start_node = Some (r, self') →
  steps self' = steps self ++ new →
  ∃ D V,
    history (graph self) (initial_distances (graph self) start_node) new D V ∧
    (∀ D' t, r = Returns D' t → D' = D).
Proof.
  intros Hrun Hnew.
  destruct (run_history _ _ _ _ Hrun) as (new' & D & V & -> & Hh & Hr).
  simpl in Hnew. apply app_inv_head in Hnew as <-.
  exists D, V. split; [done|]. intros D' t HD'. by destruct (Hr D' t HD').
Qed.

Lemma history_tables_dom g D0 t D V i Di :
  history g D0 t D V → tables D0 t !! i = Some Di → dom Di = dom D0.
Proof.
  intros H Hi.
  assert (table_le Di D0) as Hle.
  { eapply (history_monotone g D0 t D V 0 i); [done | lia | done | done]. }
  assert (table_le D Di) as Hle'.
  { eapply (history_monotone g D0 t D V i (length t)); try done.
    - apply lookup_lt_Some in Hi. rewrite length_tables in Hi. lia.
    - by eapply history_last. }
  apply history_dom in H. apply set_eq. intros v. split; intros Hv.
  - rewrite <- H. apply elem_of_dom in Hv as [d Hd].
    destruct (Hle' v d Hd) as (d' & Hd' & _). apply elem_of_dom. eauto.
  - apply elem_of_dom in Hv as [d Hd].
    destruct (Hle v d Hd) as (d' & Hd' & _). apply elem_of_dom. eauto.
Qed.

(** C4. The tables that the trace of one call shows, the initial table
    followed by the snapshot of each event, never grow at any node from an
    earlier to a later one, and all have the same nodes; the table that
    [run] returns is the last of them; and from one table to the next
    either nothing changes (a [visit_node] event) or the entry of one node
    is replaced by a strictly smaller one (a [relax_edge] event). *)
Theorem distances_never_increase self start_node r self' new :
  run self start_node = Some (r, self') →
  steps self' = steps self ++ new →
  let T := tables (initial_distances (graph self) start_node) new in
  (∀ i j Di Dj, (i ≤ j)%nat → T !! i = Some Di → T !! j = Some Dj →
     dom Dj = dom Di ∧
     ∀ v di, Di !! v = Some di → ∃ dj, Dj !! v = Some dj ∧ dist_le dj di) ∧
  (∀ D t, r = Returns D t → last T = Some D) ∧
  (∀ i e, new !! i = Some e →
     ∃ Dprev, T !! i = Some Dprev ∧
       match e with
       | visit_node _ D _ => D = Dprev
       | relax_edge _ v upd D =>
           ∃ old, Dprev !! v = Some old ∧ dist_lt (Fin upd) old ∧
                  D = <[v := Fin upd]> Dprev
       end).
Proof.
  intros Hrun Hnew T.
  destruct (run_new_history _ _ _ _ _ Hrun Hnew) as (D & V & Hh & Hr).
  split_and!.
  - intros i j Di Dj Hij Hi Hj. split.
    + rewrite (history_tables_dom _ _ _ _ _ _ _ Hh Hi).
      apply (history_tables_dom _ _ _ _ _ _ _ Hh Hj).
    + apply (history_monotone _ _ _ _ _ _ _ _ _ Hh Hij Hi Hj).
  - intros D' t HD'. rewrite (Hr D' t HD'), last_lookup.
    unfold T. rewrite length_tables. simpl. by eapply history_last.
  - intros i e He.
    destruct (history_event _ _ _ _ _ _ _ Hh He) as (Dprev & HDp & Hok).
    exists Dprev. split; [done|]. destruct e as [u D' V'|u v upd D']; [done|].
    destruct Hok as (items & w & du & old & _ & _ & _ & _ & _ & Hold & Hlt & HD').
    by exists old.
Qed.

Lemma distances_never_increase_witness :
  ∃ r new,
    run (init example_graph) "A" =
      Some (r, {| graph := example_graph; steps := new |}) ∧
    let T := tables (initial_distances example_graph "A") new in
    (∀ i j Di Dj, (i ≤ j)%nat → T !! i = Some Di → T !! j = Some Dj →
       dom Dj = dom Di ∧
       ∀ v di, Di !! v = Some di → ∃ dj, Dj !! v = Some dj ∧ dist_le dj di) ∧
    (∀ D t, r = Returns D t → last T = Some D) ∧
    (∀ i e, new !! i = Some e →
       ∃ Dprev, T !! i = Some Dprev ∧
         match e with
         | visit_node _ D _ => D = Dprev
         | relax_edge _ v upd D =>
             ∃ old, Dprev !! v = Some old ∧ dist_lt (Fin upd) old ∧
                    D = <[v := Fin upd]> Dprev
         end).
Proof.
  do 2 eexists. split; [vm_compute; reflexivity|].
  eapply (distances_never_increase (init example_graph) "A");
    vm_compute; reflexivity.
Defined.

(** *** How a call can raise *)

Lemma relax_raised cur cd st item e st' :
  relax cur cd st item = Raised e st' →
  e = KeyError item.1 ∧ (item.1 ∉ dom (distances st)) ∧ st' = st.
Proof.
  destruct item as [v w]. unfold relax.
  destruct (decide (v ∈ visited st)); [done|].
  destruct (distances st !! v) as [old|] eqn:Hold.
  - destruct (lt_dist (cd + w) old); done.
  - intros [= <- <-]. split_and!; try done. by apply not_elem_of_dom.
Qed.

Lemma relax_normal cur cd st item st' :
  relax cur cd st item = Normal st' →
  item.1 ∈ visited st ∨ item.1 ∈ dom (distances st).
Proof.
  destruct item as [v w]. unfold relax.
  destruct (decide (v ∈ visited st)); [by left|].
  destruct (distances st !! v) as [old|] eqn:Hold; [|done].
  intros _. right. apply elem_of_dom. eauto.
Qed.

Lemma relax_dom cur cd st item :
  dom (distances (state_of (relax cur cd st item))) = dom (distances st).
Proof.
  destruct item as [v w]. unfold relax.
  destruct (decide (v ∈ visited st)); [done|].
  destruct (distances st !! v) as [old|] eqn:Hold; [|done].
  destruct (lt_dist (cd + w) old); [|done]. simpl.
  rewrite dom_insert_L.
  assert (v ∈ dom (distances st)) by (apply elem_of_dom; eauto). set_solver.
Qed.

(** The loop over the items appends [relax_edge] events only. *)
Lemma relax_trace cur cd st item :
  ∃ evs, trace (state_of (relax cur cd st item)) = trace st ++ evs ∧
         visits evs = [].
Proof.
  destruct item as [v w]. unfold relax.
  destruct (decide (v ∈ visited st));
    [exists []; by rewrite app_nil_r|].
  destruct (distances st !! v) as [old|];
    [|exists []; by rewrite app_nil_r].
  destruct (lt_dist (cd + w) old); [|exists []; by rewrite app_nil_r].
  by eexists.
Qed.

Lemma visits_app t1 t2 : visits (t1 ++ t2) = visits t1 ++ visits t2.
Proof. unfold visits. apply omap_app. Qed.

Lemma relax_edges_trace cur cd its st :
  ∃ evs, trace (state_of (relax_edges cur cd its st)) = trace st ++ evs ∧
         visits evs = [].
Proof.
  revert st. induction its as [|item its IH]; intros st; cbn [relax_edges].
  { exists []. by rewrite app_nil_r. }
  destruct (relax_trace cur cd st item) as (evs1 & Ht1 & Hv1).
  destruct (relax cur cd st item) as [st1|e st1]; [|by exists evs1].
  destruct (IH st1) as (evs2 & Ht2 & Hv2). exists (evs1 ++ evs2).
  simpl in Ht1. rewrite Ht2, Ht1, app_assoc, visits_app, Hv1, Hv2. done.
Qed.


Lemma relax_edges_raised cur cd its st e st' :
  relax_edges cur cd its st = Raised e st' →
  ∃ pre k wk post,
    its = pre ++ (k, wk) :: post ∧
    e = KeyError k ∧
    (k ∉ dom (distances st)) ∧
    (∀ x y, (x, y) ∈ pre → x ∈ visited st ∨ x ∈ dom (distances st)).
Proof.
  revert st. induction its as [|[v w] its IH]; intros st; cbn [relax_edges];
    [done|].
  pose proof (relax_dom cur cd st (v, w)) as Hd.
  pose proof (relax_frame st cur cd (v, w)) as [HV _].
  destruct (relax cur cd st (v, w)) as [st1|e1 st1] eqn:Hre.
  - intros H.
    destruct (IH st1 H) as (pre & k & wk & post & -> & -> & Hk & Hpre).
    simpl in Hd, HV. exists ((v, w) :: pre), k, wk, post.
    split_and!; [done | done | by rewrite <- Hd |].
    intros x y Hin. apply elem_of_cons in Hin as [[= -> ->]|Hin].
    + apply (relax_normal _ _ _ _ _ Hre).
    + rewrite <- HV, <- Hd. by eapply Hpre.
  - intros [= <- <-]. apply relax_raised in Hre as (-> & Hv & _).
    exists [], v, w, its. split_and!; try done.
    intros x y Hin. by apply elem_of_nil in Hin.
Qed.


(** The first node that a history visits is the start node. *)
Lemma history_start g start_node t D V :
  history g (initial_distances g start_node) t D V →
  (V = ∅ → D = initial_distances g start_node) ∧
  (∀ u, u ∈ V → start_node ∈ V).
Proof.
  induction 1 as [|t D V u d _ [IH1 IH2] Hu HD|t D V u items v w du old _ [IH1 IH2] Hu].
  - split; [done | set_solver].
  - split; [set_solver|]. intros x _.
    destruct (set_choose_or_empty V) as [[y Hy]|HV%leibniz_equiv].
    + specialize (IH2 y Hy). set_solver.
    + rewrite (IH1 HV) in HD.
      apply initial_distances_lookup in HD as [-> _]. set_solver.
  - split; [set_solver | done].
Qed.

Section raising.

Variable g : gmap node (list (node * Z)).
Variable start_node : node.
Variable steps0 : list step.




(** A turn of the loop that raises has popped and visited a node, and
    either this node is not a key or one of its edges dangles, the first
    one in the order of its items. *)
Lemma iteration_raised st e st' :
  iteration g st = Some (Raised e st') →
  ∃ cd cur q' evs,
    heappop (priority_queue st) = Some ((cd, cur), q') ∧
    (cur ∉ visited st) ∧
    trace st' =
      trace st ++
      visit_node cur (distances st) ({[cur]} ∪ visited st) :: evs ∧
    visits evs = [] ∧
    ((g !! cur = None ∧ e = KeyError cur) ∨
     (∃ pre k wk post,
        g !! cur = Some (pre ++ (k, wk) :: post) ∧
        e = KeyError k ∧
        (k ∉ dom (distances st)) ∧
        (∀ x y, (x, y) ∈ pre →
           x ∈ {[cur]} ∪ visited st ∨ x ∈ dom (distances st)))).
Proof.
  unfold iteration.
  destruct (heappop (priority_queue st)) as [[[cd cur] q']|] eqn:Hpop; [|done].
  destruct (decide (cur ∈ visited st)) as [Hcur|Hcur]; [done|].
  destruct (g !! cur) as [items|] eqn:Hg.
  - intros [= Hre]. pose proof Hre as Hre'.
    apply relax_edges_raised
      in Hre as (pre & k & wk & post & -> & -> & Hk & Hpre).
    match type of Hre' with relax_edges _ _ _ ?s = _ =>
      destruct (relax_edges_trace cur cd (pre ++ (k, wk) :: post) s)
        as (evs & Ht & Hv) end.
    rewrite Hre' in Ht. simpl in Ht, Hk, Hpre.
    exists cd, cur, q', evs. split_and!; try done.
    + by rewrite Ht, <- app_assoc.
    + right. by exists pre, k, wk, post.
  - intros [= <- <-]. exists cd, cur, q', []. split_and!; try done. by left.
Qed.

End raising.


Lemma visits_cons_visit u D X t :
  visits (visit_node u D X :: t) = u :: visits t.
Proof. done. Qed.






(** *** Visiting once *)

Lemma NoDup_take_prefix {A} (l : list A) n : NoDup l → NoDup (take n l).
Proof.
  intros H. rewrite <- (take_drop n l) in H.
  by apply NoDup_app in H as [H _].
Qed.

(** C3, as stated, fails: in the call from [A] on the graph
    [{A: {B: 1}, B: {}, C: {}}] the node [C] is the node of no
    [visit_node] event, so not every node is visited exactly once. *)
Lemma unreachable_node_never_visited :
  run (init disconnected_graph) "A" =
    Some (Returns disconnected_distances disconnected_trace,
          {| graph := disconnected_graph; steps := disconnected_trace |}) ∧
  "C" ∈ dom disconnected_graph ∧
  ("C" ∉ visits disconnected_trace) ∧
  ¬ (∀ v, v ∈ dom disconnected_graph →
       ∃ i, visits disconnected_trace !! i = Some v).
Proof.
  assert ("C" ∉ visits disconnected_trace) as Hno
    by (apply (bool_decide_unpack _); vm_compute; exact I).
  split_and!; [vm_compute; reflexivity | | done |].
  - apply (bool_decide_unpack _). vm_compute. exact I.
  - intros H. destruct (H "C") as [i Hi].
    + apply (bool_decide_unpack _). vm_compute. exact I.
    + apply Hno. by eapply list_elem_of_lookup_2.
Qed.

(** C3, amended. In the trace of one call no node is the node of two
    [visit_node] events; the set that the [i]-th such event records holds
    exactly the nodes of the events up to it, so it has [i + 1] members,
    strictly includes the set before it and has one member more. On a
    graph within the contract, from a start node that is a key, the nodes
    reachable from the start are the node of exactly one [visit_node]
    event each, and the other nodes of none. *)
Theorem visit_once self start_node r self' new :
  run self start_node = Some (r, self') →
  steps self' = steps self ++ new →
  NoDup (visits new) ∧
  length (visited_sets new) = length (visits new) ∧
  (∀ i X, visited_sets new !! i = Some X →
     X = list_to_set (take (S i) (visits new)) ∧ size X = S i) ∧
  (∀ i X X', visited_sets new !! i = Some X →
     visited_sets new !! S i = Some X' →
     X ⊂ X' ∧ size X' = S (size X)) ∧
  (nonnegative (graph self) →
   closed (graph self) →
   start_node ∈ dom (graph self) →
   ∀ v,
     (reachable (graph self) start_node v →
        ∃ i, visits new !! i = Some v ∧
             ∀ j, visits new !! j = Some v → j = i) ∧
     (¬ reachable (graph self) start_node v → v ∉ visits new)).
Proof.
  intros Hrun Hnew.
  destruct (run_new_history _ _ _ _ _ Hrun Hnew) as (Df & Vf & Hh & _).
  destruct (history_visits _ _ _ _ _ Hh) as [Hnd HV].
  assert (∀ i X, visited_sets new !! i = Some X →
     X = list_to_set (take (S i) (visits new)) ∧ size X = S i) as Hsets.
  { intros i X Hi. pose proof (history_sets _ _ _ _ _ _ _ Hh Hi) as ->.
    split; [done|].
    rewrite size_list_to_set by (by apply NoDup_take_prefix).
    apply lookup_lt_Some in Hi. rewrite length_visited_sets in Hi.
    rewrite length_take. lia. }
  split_and!; [done | apply length_visited_sets | done | |].
  - intros i X X' Hi Hi'.
    destruct (Hsets _ _ Hi) as [HX Hs], (Hsets _ _ Hi') as [HX' Hs'].
    split; [|lia]. split.
    + rewrite HX, HX'. intros x Hx.
      apply elem_of_list_to_set, elem_of_take in Hx as (j & Hj & Hlt).
      apply elem_of_list_to_set, elem_of_take. exists j. split; [done | lia].
    + intros Hsub. apply subseteq_size in Hsub. lia.
  - intros Hnn Hcl Hstart v.
    destruct (run_returns self start_node Hnn Hcl Hstart)
      as (st & Hhead & Hq & Hrun').
    rewrite Hrun in Hrun'. injection Hrun' as -> ->.
    destruct self as [g steps0]. cbn [graph steps] in *.
    pose proof (inv_loop_head _ _ _ _ Hhead) as Hinv.
    pose proof (loop_head_within g start_node steps0
      (λ u items v w, nonnegative_edge g u items v w Hnn)
      (λ u items v w, closed_edge g u items v w Hcl) Hstart _ Hhead) as Hhd.
    destruct (inv_history _ _ _ _ Hinv) as (new' & Ht & Hh').
    rewrite Hnew in Ht. apply app_inv_head in Ht as <-.
    destruct (history_visits _ _ _ _ _ Hh') as [_ HV'].
    split.
    + intros [p Hp].
      destruct (final_lower_bound g start_node steps0 st v p Hinv Hhd Hq Hp)
        as (Hv & _).
      rewrite HV' in Hv.
      apply elem_of_list_to_set, list_elem_of_lookup in Hv as [i Hi].
      exists i. split; [done|]. intros j Hj.
      by apply (NoDup_lookup (visits new) j i v).
    + intros Hnr Hv. apply Hnr.
      assert (v ∈ visited st) as Hv'
        by (rewrite HV'; by apply elem_of_list_to_set).
      destruct (inv_visited_fin _ _ _ _ Hinv v Hv') as [d Hd].
      exists d. by eapply inv_path.
Qed.

Lemma visit_once_witness :
  NoDup (visits disconnected_trace) ∧
  length (visited_sets disconnected_trace) =
    length (visits disconnected_trace) ∧
  (∀ i X, visited_sets disconnected_trace !! i = Some X →
     X = list_to_set (take (S i) (visits disconnected_trace)) ∧
     size X = S i) ∧
  (∀ i X X', visited_sets disconnected_trace !! i = Some X →
     visited_sets disconnected_trace !! S i = Some X' →
     X ⊂ X' ∧ size X' = S (size X)) ∧
  (∀ v,
     (reachable disconnected_graph "A" v →
        ∃ i, visits disconnected_trace !! i = Some v ∧
             ∀ j, visits disconnected_trace !! j = Some v → j = i) ∧
     (¬ reachable disconnected_graph "A" v →
        v ∉ visits disconnected_trace)).
Proof.
  destruct (visit_once (init disconnected_graph) "A"
    (Returns disconnected_distances disconnected_trace)
    {| graph := disconnected_graph; steps := disconnected_trace |}
    disconnected_trace) as (H1 & H2 & H3 & H4 & H5);
    [vm_compute; reflexivity | reflexivity |].
  split_and!; try done.
  apply H5; apply (bool_decide_unpack _); vm_compute; exact I.
Defined.

(** ** Further properties of [run] *)

(** *** Where a call ends *)

(** A call ends at a loop head with an empty queue, or in a turn of the
    loop that raises; the invariant holds where it ends. *)
Lemma run_end self start_node r self' :
  run self start_node = Some (r, self') →
  ∃ o,
    r = result_of o ∧
    self' = {| graph := graph self; steps := trace (state_of o) |} ∧
    inv (graph self) start_node (steps self) (state_of o) ∧
    ((∃ st, o = Normal st ∧
        loop_head (graph self) (initial_state self start_node) st ∧
        priority_queue st = []) ∨
     (∃ e st' sth, o = Raised e st' ∧
        loop_head (graph self) (initial_state self start_node) sth ∧
        iteration (graph self) sth = Some (Raised e st'))).
Proof.
  intros Hrun. apply run_unfold in Hrun as (o & Ho & -> & ->).
  exists o. split_and!; [done | done | by eapply while_loop_inv |].
  destruct o as [st|e st'].
  - left. eapply while_loop_normal in Ho as [Hhead Hq]; [|constructor].
    by exists st.
  - right. eapply while_loop_raised in Ho as (sth & Hhead & Hit);
      [|constructor].
    by exists e, st', sth.
Qed.

(** What holds before the loop and is kept by every turn holds where the
    loop ends. *)
Lemma while_loop_invariant (P : state → Prop) g st0 :
  P st0 →
  (∀ st o, loop_head g st0 st → P st → iteration g st = Some o →
     P (state_of o)) →
  ∀ fuel o, while_loop fuel g st0 = Some o → P (state_of o).
Proof.
  intros H0 Hstep fuel o Ho.
  assert (∀ st, loop_head g st0 st → P st) as Hheads.
  { induction 1 as [|st st' Hhead IH Hit]; [done|].
    apply (Hstep st (Normal st') Hhead IH Hit). }
  destruct o as [st|e st'].
  - eapply while_loop_normal in Ho as [Hhead _]; [|constructor]. by apply Hheads.
  - eapply while_loop_raised in Ho as (sth & Hhead & Hit); [|constructor].
    apply (Hstep sth (Raised e st') Hhead (Hheads _ Hhead) Hit).
Qed.

(** *** What the tables of a history hold *)

Lemma history_sound g start_node t D V :
  history g (initial_distances g start_node) t D V →
  (∀ v d, D !! v = Some (Fin d) → path g start_node v d) ∧
  (∀ e v d, e ∈ t → snapshot e !! v = Some (Fin d) → path g start_node v d) ∧
  (∀ u, u ∈ visits t → reachable g start_node u).
Proof.
  induction 1
    as [|t D V u d _ (IH1 & IH2 & IH3) Hu HD
        |t D V u items v w du old _ (IH1 & IH2 & IH3) Hu Hv Hg Hin Hdu Hold Hlt].
  - split_and!.
    + intros v d Hd. apply initial_distances_lookup in Hd as [-> ->].
      constructor.
    + intros e v d He. by apply elem_of_nil in He.
    + intros u Hu. by apply elem_of_nil in Hu.
  - split_and!; [done| |].
    + intros e v d' He. apply elem_of_app in He as [He|He]; [by eapply IH2|].
      apply list_elem_of_singleton in He as ->. simpl. apply IH1.
    + intros x Hx. rewrite visits_snoc in Hx.
      apply elem_of_app in Hx as [Hx|Hx]; [by apply IH3|].
      apply list_elem_of_singleton in Hx as ->. exists d. by apply IH1.
  - assert (∀ x d, <[v := Fin (du + w)]> D !! x = Some (Fin d) →
              path g start_node x d) as Hnew.
    { intros x d Hx.
      apply lookup_insert_Some in Hx as [[<- [= <-]]|[_ Hx]]; [|by apply IH1].
      eapply path_snoc; eauto. }
    split_and!; [done| |].
    + intros e x d He. apply elem_of_app in He as [He|He]; [by eapply IH2|].
      apply list_elem_of_singleton in He as ->. simpl. apply Hnew.
    + intros x Hx. rewrite visits_snoc, app_nil_r in Hx. by apply IH3.
Qed.

(** No event changes the entry of the start node. *)
Lemma history_start_zero g start_node t D V :
  history g (initial_distances g start_node) t D V →
  D !! start_node = Some (Fin 0) ∧
  (∀ e, e ∈ t → snapshot e !! start_node = Some (Fin 0)).
Proof.
  intros H.
  induction H
    as [|t D V u d H [IH1 IH2] Hu HD
        |t D V u items v w du old H [IH1 IH2] Hu Hv Hg Hin Hdu Hold Hlt].
  - split; [apply lookup_insert_eq|]. intros e He. by apply elem_of_nil in He.
  - split; [by apply IH1|]. intros e He.
    apply elem_of_app in He as [He|He]; [by apply IH2|].
    apply list_elem_of_singleton in He as ->. simpl. by apply IH1.
  - destruct (history_start _ _ _ _ _ H) as [_ Hfirst].
    assert (v ≠ start_node) as Hne.
    { intros ->. apply Hv. by apply (Hfirst u). }
    assert (<[v := Fin (du + w)]> D !! start_node = Some (Fin 0)) as Hnew
      by (rewrite lookup_insert_ne by done; by apply IH1).
    split; [done|]. intros e He.
    apply elem_of_app in He as [He|He]; [by apply IH2|].
    by apply list_elem_of_singleton in He as ->.
Qed.

(** Once a visit event has recorded a set of nodes, no later table differs
    from its snapshot at any of them. *)
Lemma history_final g D0 t D V i u Du X :
  history g D0 t D V →
  t !! i = Some (visit_node u Du X) →
  X ⊆ V ∧
  ∀ j Dj, (i < j)%nat → tables D0 t !! j = Some Dj →
    ∀ x, x ∈ X → Dj !! x = Du !! x.
Proof.
  intros H. revert i u Du X.
  induction H
    as [|t D V u' d H IH Hu HD
        |t D V u' items v w du old H IH Hu Hv Hg Hin Hdu Hold Hlt];
    intros i u Du X Hi; [done| |];
    pose proof (history_last _ _ _ _ _ H) as Hlast;
    rewrite tables_snoc;
    apply lookup_app_Some in Hi as [Hi|[Hle Hi]].
  - destruct (IH _ _ _ _ Hi) as [HX Heq]. split; [set_solver|].
    intros j Dj Hij Hj x Hx. apply lookup_lt_Some in Hi as Hlt.
    apply lookup_app_Some in Hj as [Hj|[Hlej Hj]]; [by apply (Heq j Dj)|].
    apply list_lookup_singleton_Some in Hj as [_ <-]. simpl.
    apply (Heq (length t) D); [lia | done | done].
  - apply list_lookup_singleton_Some in Hi as [Hi [= <- <- <-]].
    split; [done|]. intros j Dj Hij Hj x Hx.
    apply lookup_app_Some in Hj as [Hj|[Hlej Hj]].
    + apply lookup_lt_Some in Hj. rewrite length_tables in Hj. lia.
    + by apply list_lookup_singleton_Some in Hj as [_ <-].
  - destruct (IH _ _ _ _ Hi) as [HX Heq]. split; [done|].
    intros j Dj Hij Hj x Hx. apply lookup_lt_Some in Hi as Hlen.
    apply lookup_app_Some in Hj as [Hj|[Hlej Hj]]; [by apply (Heq j Dj)|].
    apply list_lookup_singleton_Some in Hj as [_ <-]. simpl.
    rewrite lookup_insert_ne by (intros <-; apply Hv; by apply HX).
    apply (Heq (length t) D); [lia | done | done].
  - by apply list_lookup_singleton_Some in Hi as [_ ?].
Qed.

Lemma history_visit_member g D0 t D V i u Du X :
  history g D0 t D V → t !! i = Some (visit_node u Du X) → u ∈ X.
Proof.
  intros H. revert i.
  induction H as [|t D V u' d H IH Hu HD|t D V u' items v w du old H IH];
    intros i Hi; [done| |];
    (apply lookup_app_Some in Hi as [Hi|[_ Hi]]; [by eapply IH|]);
    apply list_lookup_singleton_Some in Hi as [_ Hi]; [|done].
  injection Hi as <- <- <-. set_solver.
Qed.

(** X1. For every graph, whatever the signs of its weights, a finite
    distance is never invented: every finite entry of the table that [run]
    returns, and of every snapshot that the call adds to the trace, is the
    weight of a path of the graph from the start node to that node; and
    every node of a [visit_node] event can be reached from the start. *)
Theorem finite_entries_are_path_weights self start_node r self' new :
  run self start_node = Some (r, self') →
  steps self' = steps self ++ new →
  (∀ D t v d, r = Returns D t → D !! v = Some (Fin d) →
     path (graph self) start_node v d) ∧
  (∀ e v d, e ∈ new → snapshot e !! v = Some (Fin d) →
     path (graph self) start_node v d) ∧
  (∀ u, u ∈ visits new → reachable (graph self) start_node u).
Proof.
  intros Hrun Hnew.
  destruct (run_new_history _ _ _ _ _ Hrun Hnew) as (Df & Vf & Hh & Hr).
  destruct (history_sound _ _ _ _ _ Hh) as (H1 & H2 & H3).
  split_and!; [|done|done].
  intros D t v d HD. rewrite (Hr D t HD). apply H1.
Qed.

Lemma finite_entries_are_path_weights_witness :
  (∀ D t v d, Returns disconnected_distances disconnected_trace = Returns D t →
     D !! v = Some (Fin d) → path disconnected_graph "A" v d) ∧
  (∀ e v d, e ∈ disconnected_trace → snapshot e !! v = Some (Fin d) →
     path disconnected_graph "A" v d) ∧
  (∀ u, u ∈ visits disconnected_trace → reachable disconnected_graph "A" u).
Proof.
  apply (finite_entries_are_path_weights (init disconnected_graph) "A"
    (Returns disconnected_distances disconnected_trace)
    {| graph := disconnected_graph; steps := disconnected_trace |}
    disconnected_trace); [vm_compute; reflexivity | reflexivity].
Defined.

(** X2. For every graph, the start node is at distance 0 in the table
    that [run] returns and in every snapshot that the call adds to the
    trace: no relaxation, not even along a negative edge or cycle back to
    the start, replaces the entry that the initialisation wrote. *)
Theorem start_distance_is_zero self start_node r self' new :
  run self start_node = Some (r, self') →
  steps self' = steps self ++ new →
  (∀ D t, r = Returns D t → D !! start_node = Some (Fin 0)) ∧
  (∀ e, e ∈ new → snapshot e !! start_node = Some (Fin 0)).
Proof.
  intros Hrun Hnew.
  destruct (run_new_history _ _ _ _ _ Hrun Hnew) as (Df & Vf & Hh & Hr).
  destruct (history_start_zero _ _ _ _ _ Hh) as [H1 H2].
  split; [|done]. intros D t HD. by rewrite (Hr D t HD).
Qed.

Lemma start_distance_is_zero_witness :
  (∀ D t, Returns disconnected_distances disconnected_trace = Returns D t →
     D !! "A" = Some (Fin 0)) ∧
  (∀ e, e ∈ disconnected_trace → snapshot e !! "A" = Some (Fin 0)).
Proof.
  apply (start_distance_is_zero (init disconnected_graph) "A"
    (Returns disconnected_distances disconnected_trace)
    {| graph := disconnected_graph; steps := disconnected_trace |}
    disconnected_trace); [vm_compute; reflexivity | reflexivity].
Defined.

(** X3. For every graph, a visited node is final: the node of a
    [visit_node] event is in the visited set that the event records, and
    every node of that set has, in the snapshot of every later event and
    in the table that [run] returns, the entry that it has in the snapshot
    of the event. *)
Theorem visited_distance_is_final self start_node r self' new i u Du X :
  run self start_node = Some (r, self') →
  steps self' = steps self ++ new →
  new !! i = Some (visit_node u Du X) →
  u ∈ X ∧
  (∀ j e x, (i < j)%nat → new !! j = Some e → x ∈ X →
     snapshot e !! x = Du !! x) ∧
  (∀ D t x, r = Returns D t → x ∈ X → D !! x = Du !! x).
Proof.
  intros Hrun Hnew Hi.
  destruct (run_new_history _ _ _ _ _ Hrun Hnew) as (Df & Vf & Hh & Hr).
  destruct (history_final _ _ _ _ _ _ _ _ _ Hh Hi) as [_ Hfin].
  split_and!.
  - by eapply history_visit_member.
  - intros j e x Hij Hj Hx. apply (Hfin (S j) (snapshot e)); [lia| |done].
    unfold tables. simpl. by rewrite list_lookup_fmap, Hj.
  - intros D t x HD Hx. rewrite (Hr D t HD).
    apply (Hfin (length new) Df); [|by eapply history_last|done].
    by apply lookup_lt_Some in Hi.
Qed.

Lemma visited_distance_is_final_witness :
  "A" ∈ ({["A"]} : gset node) ∧
  (∀ j e x, (0 < j)%nat → disconnected_trace !! j = Some e →
     x ∈ ({["A"]} : gset node) →
     snapshot e !! x = initial_distances disconnected_graph "A" !! x) ∧
  (∀ D t x, Returns disconnected_distances disconnected_trace = Returns D t →
     x ∈ ({["A"]} : gset node) →
     D !! x = initial_distances disconnected_graph "A" !! x).
Proof.
  apply (visited_distance_is_final (init disconnected_graph) "A"
    (Returns disconnected_distances disconnected_trace)
    {| graph := disconnected_graph; steps := disconnected_trace |}
    disconnected_trace 0 "A");
    [vm_compute; reflexivity | reflexivity | reflexivity].
Defined.

(** *** What a call raises, and when it does not *)

(** The key of the [KeyError] of a raising turn is not a key of the graph:
    it is the start node, or the destination of an edge out of a node that
    can be reached from the start. *)
Lemma raised_key g start_node steps0 sth e st' :
  inv g start_node steps0 sth →
  iteration g sth = Some (Raised e st') →
  ∃ k, e = KeyError k ∧ (k ∉ dom g) ∧
    (k = start_node ∨
     ∃ u items w, g !! u = Some items ∧ (k, w) ∈ items ∧
       reachable g start_node u).
Proof.
  intros Hinv Hit.
  destruct (iteration_raised _ _ _ _ Hit)
    as (cd & cur & q' & evs & Hpop & Hcur & _ & _ & Hcase).
  pose proof (popped_distance _ _ _ _ _ _ _ Hinv Hpop Hcur) as HD.
  destruct Hcase as [[Hnone ->]|(pre & k & wk & post & Hg & -> & Hk & _)].
  - exists cur. apply not_elem_of_dom in Hnone. split_and!; [done | done |].
    left. assert (cur ∈ dom (distances sth)) as Hd by (apply elem_of_dom; eauto).
    rewrite (inv_dom _ _ _ _ Hinv) in Hd. set_solver.
  - rewrite (inv_dom _ _ _ _ Hinv) in Hk.
    exists k. split_and!; [done | set_solver |].
    right. exists cur, (pre ++ (k, wk) :: post), wk. split_and!; [done| |].
    + apply elem_of_app. right. apply elem_of_cons. by left.
    + exists cd. by eapply inv_path.
Qed.

(** X4. The only exception that [run] raises is a [KeyError], and its key
    is never a key of the graph: it is the start node, or the destination
    of an edge out of a node that can be reached from the start. *)
Theorem run_raises_only_unknown_keys self start_node e self' :
  run self start_node = Some (Raises e, self') →
  ∃ k, e = KeyError k ∧ (k ∉ dom (graph self)) ∧
    (k = start_node ∨
     ∃ u items w, graph self !! u = Some items ∧ (k, w) ∈ items ∧
       reachable (graph self) start_node u).
Proof.
  intros Hrun.
  destruct (run_end _ _ _ _ Hrun) as (o & Hr & _ & _ & Hcase).
  destruct Hcase as [(st & -> & _)|(e' & st' & sth & -> & Hhead & Hit)];
    [done|].
  injection Hr as ->. destruct self as [g steps0]. cbn [graph] in *.
  apply inv_loop_head in Hhead. by eapply raised_key.
Qed.

Lemma run_raises_only_unknown_keys_witness :
  ∃ k, KeyError "Z" = KeyError k ∧ (k ∉ dom dangling_graph) ∧
    (k = "A" ∨
     ∃ u items w, dangling_graph !! u = Some items ∧ (k, w) ∈ items ∧
       reachable dangling_graph "A" u).
Proof.
  eapply (run_raises_only_unknown_keys (init dangling_graph) "A").
  vm_compute. reflexivity.
Defined.

(** X5. On a graph all of whose edges lead to keys, from a start node that
    is a key, [run] returns and does not raise, whatever the signs of the
    weights; the table that it returns has exactly the keys of the
    graph. *)
Theorem run_returns_on_closed_graph self start_node :
  closed (graph self) →
  start_node ∈ dom (graph self) →
  ∃ D new,
    run self start_node =
      Some (Returns D (steps self ++ new),
            {| graph := graph self; steps := steps self ++ new |}) ∧
    dom D = dom (graph self).
Proof.
  intros Hcl Hstart.
  destruct (run_total self start_node) as [[r self'] Hrun].
  destruct (run_end _ _ _ _ Hrun) as (o & -> & -> & Hinv & Hcase).
  rewrite Hrun. destruct self as [g steps0]. cbn [graph steps] in *.
  destruct Hcase as [(st & -> & _)|(e' & st' & sth & -> & Hhead & Hit)].
  - simpl in *. destruct (inv_history _ _ _ _ Hinv) as (new & Ht & _).
    exists (distances st), new. rewrite Ht. split; [done|].
    rewrite (inv_dom _ _ _ _ Hinv). set_solver.
  - exfalso. apply inv_loop_head in Hhead.
    destruct (raised_key _ _ _ _ _ _ Hhead Hit)
      as (k & _ & Hk & [->|(u & items & w & Hg & Hin & _)]); [done|].
    apply Hk. by eapply closed_edge.
Qed.

Lemma run_returns_on_closed_graph_witness :
  ∃ D new,
    run (init negative_cycle_graph) "A" =
      Some (Returns D (steps (init negative_cycle_graph) ++ new),
            {| graph := graph (init negative_cycle_graph);
               steps := steps (init negative_cycle_graph) ++ new |}) ∧
    dom D = dom (graph (init negative_cycle_graph)).
Proof.
  apply (run_returns_on_closed_graph (init negative_cycle_graph) "A");
    apply (bool_decide_unpack _); vm_compute; exact I.
Defined.

(** *** Which nodes get a finite distance *)

Lemma relax_keeps_finite cur cd st item x d :
  distances st !! x = Some (Fin d) →
  ∃ d', distances (state_of (relax cur cd st item)) !! x = Some (Fin d').
Proof.
  intros Hx. destruct item as [v w]. unfold relax.
  destruct (decide (v ∈ visited st)); [eauto|].
  destruct (distances st !! v) as [old|]; [|eauto].
  destruct (lt_dist (cd + w) old); [|eauto]. simpl.
  destruct (decide (x = v)) as [->|Hne].
  - exists (cd + w). by rewrite lookup_insert_eq.
  - exists d. by rewrite lookup_insert_ne.
Qed.

Lemma relax_edges_keep_finite cur cd its st x d :
  distances st !! x = Some (Fin d) →
  ∃ d', distances (state_of (relax_edges cur cd its st)) !! x = Some (Fin d').
Proof.
  revert st d. induction its as [|item its IH]; intros st d Hx;
    cbn [relax_edges]; [eauto|].
  destruct (relax_keeps_finite cur cd st item x d Hx) as [d1 Hd1].
  destruct (relax cur cd st item) as [st1|e st1]; [|eauto].
  by eapply IH.
Qed.

Lemma relax_makes_finite cur cd st v w st' :
  (∀ u, u ∈ visited st → ∃ d, distances st !! u = Some (Fin d)) →
  relax cur cd st (v, w) = Normal st' →
  ∃ d, distances st' !! v = Some (Fin d).
Proof.
  intros Hfin. unfold relax.
  destruct (decide (v ∈ visited st)) as [Hv|Hv].
  { intros [= <-]. by apply Hfin. }
  destruct (distances st !! v) as [old|] eqn:Hold; [|done].
  destruct (lt_dist (cd + w) old) eqn:Hlt; intros [= <-].
  - exists (cd + w). simpl. by rewrite lookup_insert_eq.
  - apply lt_dist_false in Hlt. destruct old as [d|]; [|done]. eauto.
Qed.

Lemma relax_edges_make_finite cur cd its st st' :
  (∀ u, u ∈ visited st → ∃ d, distances st !! u = Some (Fin d)) →
  relax_edges cur cd its st = Normal st' →
  ∀ v w, (v, w) ∈ its → ∃ d, distances st' !! v = Some (Fin d).
Proof.
  revert st. induction its as [|[v w] its IH]; intros st Hfin;
    cbn [relax_edges].
  { intros _ v w Hin. by apply elem_of_nil in Hin. }
  pose proof (relax_frame st cur cd (v, w)) as [HV HD].
  destruct (relax cur cd st (v, w)) as [st1|e st1] eqn:Hre; [|done].
  simpl in HV, HD. intros Hres x y Hin.
  apply elem_of_cons in Hin as [[= -> ->]|Hin].
  - destruct (relax_makes_finite _ _ _ _ _ _ Hfin Hre) as [d Hd].
    pose proof (relax_edges_keep_finite cur cd its st1 v d Hd) as Hk.
    by rewrite Hres in Hk.
  - apply (IH st1) with y; [|done|done].
    intros u Hu. rewrite HV in Hu. rewrite HD by done. by apply Hfin.
Qed.

Lemma iteration_finite g start_node steps0 st st' :
  inv g start_node steps0 st →
  head_finite g st →
  iteration g st = Some (Normal st') →
  head_finite g st'.
Proof.
  intros Hinv Hhf. unfold iteration.
  destruct (heappop (priority_queue st)) as [[[cd cur] q']|] eqn:Hpop; [|done].
  destruct (decide (cur ∈ visited st)) as [Hcur|Hcur].
  { intros [= <-]. done. }
  pose proof (inv_visit _ _ _ _ _ _ _ Hinv Hpop Hcur) as Hinv1.
  destruct (g !! cur) as [items|] eqn:Hg; [|done]. intros [= Hre].
  match type of Hre with relax_edges _ _ _ ?s = _ =>
    pose proof (relax_edges_visited cur cd items s) as Hvis;
    pose proof (relax_edges_make_finite cur cd items s st'
      (inv_visited_fin _ _ _ _ Hinv1) Hre) as Hmk;
    pose proof (λ x d, relax_edges_keep_finite cur cd items s x d) as Hkeep
  end.
  rewrite Hre in Hvis, Hkeep. simpl in Hvis, Hkeep.
  intros u its v w Hu Hgu Hin. rewrite Hvis in Hu.
  apply elem_of_union in Hu as [Hu|Hu].
  - apply elem_of_singleton in Hu as ->. rewrite Hg in Hgu.
    injection Hgu as <-. by eapply Hmk.
  - destruct (Hhf u its v w Hu Hgu Hin) as [d Hd]. by eapply Hkeep.
Qed.

Lemma loop_head_finite g start_node steps0 st :
  loop_head g (initial_state {| graph := g; steps := steps0 |} start_node) st →
  head_finite g st.
Proof.
  induction 1 as [|st st' Hhead IH Hit].
  - intros u items v w Hu. simpl in Hu. set_solver.
  - apply inv_loop_head in Hhead. by eapply iteration_finite.
Qed.

(** X6. For every graph, whatever the signs of its weights: when [run]
    returns, the nodes with a finite distance in the returned table are
    exactly the nodes that can be reached from the start node, and exactly
    the nodes of the [visit_node] events; every other key is at
    infinity. *)
Theorem finite_iff_reachable self start_node D t self' new :
  run self start_node = Some (Returns D t, self') →
  steps self' = steps self ++ new →
  ∀ v,
    (reachable (graph self) start_node v ↔ ∃ d, D !! v = Some (Fin d)) ∧
    (reachable (graph self) start_node v ↔ v ∈ visits new) ∧
    (v ∈ dom (graph self) → ¬ reachable (graph self) start_node v →
       D !! v = Some Inf).
Proof.
  intros Hrun Hnew.
  destruct (run_end _ _ _ _ Hrun) as (o & Hr & -> & Hinv & Hcase).
  destruct Hcase as [(st & -> & Hhead & Hq)|(e' & st' & sth & -> & _)];
    [|done].
  injection Hr as -> ->. destruct self as [g steps0]. cbn [graph steps] in *.
  simpl in Hinv, Hnew. pose proof (loop_head_finite _ _ _ _ Hhead) as Hhf.
  destruct (inv_history _ _ _ _ Hinv) as (new' & Ht & Hh).
  rewrite Hnew in Ht. apply app_inv_head in Ht as <-.
  destruct (history_visits _ _ _ _ _ Hh) as [_ HV].
  assert (∀ u d, distances st !! u = Some (Fin d) → u ∈ visited st) as Hvis.
  { intros u d Hd. destruct (decide (u ∈ visited st)) as [|Hu]; [done|].
    pose proof (inv_queue_has _ _ _ _ Hinv u d Hu Hd) as Hin.
    rewrite Hq in Hin. by apply elem_of_nil in Hin. }
  assert (∀ v, reachable g start_node v → v ∈ visited st) as Hall.
  { intros v [p Hp]. induction Hp as [|u d items v w Hp IH Hg Hvw].
    - destruct (inv_start _ _ _ _ Hinv) as (d & Hd & _). by eapply Hvis.
    - destruct (Hhf u items v w IH Hg Hvw) as [dv Hdv]. by eapply Hvis. }
  assert (∀ v d, distances st !! v = Some (Fin d) → reachable g start_node v)
    as Hpath by (intros v d Hd; exists d; by eapply inv_path).
  intros v. split_and!.
  - split; [|intros [d Hd]; by eapply Hpath].
    intros Hv. by apply (inv_visited_fin _ _ _ _ Hinv), Hall.
  - split.
    + intros Hv. apply Hall in Hv. rewrite HV in Hv.
      by apply elem_of_list_to_set in Hv.
    + intros Hv. apply (elem_of_list_to_set (C := gset node)) in Hv.
      rewrite <- HV in Hv.
      destruct (inv_visited_fin _ _ _ _ Hinv v Hv) as [d Hd]. by eapply Hpath.
  - intros Hv Hnr.
    assert (v ∈ dom (distances st)) as Hd
      by (rewrite (inv_dom _ _ _ _ Hinv); set_solver).
    apply elem_of_dom in Hd as [[d|] Hd]; [|done].
    destruct Hnr. by eapply Hpath.
Qed.

Lemma finite_iff_reachable_witness :
  (reachable disconnected_graph "A" "C" ↔
     ∃ d, disconnected_distances !! "C" = Some (Fin d)) ∧
  (reachable disconnected_graph "A" "C" ↔ "C" ∈ visits disconnected_trace) ∧
  ("C" ∈ dom disconnected_graph → ¬ reachable disconnected_graph "A" "C" →
     disconnected_distances !! "C" = Some Inf).
Proof.
  apply (finite_iff_reachable (init disconnected_graph) "A"
    disconnected_distances disconnected_trace
    {| graph := disconnected_graph; steps := disconnected_trace |}
    disconnected_trace); [vm_compute; reflexivity | reflexivity].
Defined.

(** *** The shape of one turn of the loop *)

Lemma relax_events cur cd st item :
  ∃ evs, trace (state_of (relax cur cd st item)) = trace st ++ evs ∧
         Forall (relaxes_from cur) evs ∧ (length evs ≤ 1)%nat.
Proof.
  destruct item as [v w]. unfold relax.
  destruct (decide (v ∈ visited st));
    [exists []; by rewrite app_nil_r; auto|].
  destruct (distances st !! v) as [old|];
    [|exists []; by rewrite app_nil_r; auto].
  destruct (lt_dist (cd + w) old); [|exists []; by rewrite app_nil_r; auto].
  eexists. split; [done|]. split; [|simpl; lia]. by constructor.
Qed.

Lemma relax_edges_events cur cd its st :
  ∃ evs, trace (state_of (relax_edges cur cd its st)) = trace st ++ evs ∧
         Forall (relaxes_from cur) evs ∧ (length evs ≤ length its)%nat.
Proof.
  revert st. induction its as [|item its IH]; intros st; cbn [relax_edges].
  { exists []. by rewrite app_nil_r. }
  destruct (relax_events cur cd st item) as (evs1 & Ht1 & Hf1 & Hl1).
  destruct (relax cur cd st item) as [st1|e st1].
  - destruct (IH st1) as (evs2 & Ht2 & Hf2 & Hl2). exists (evs1 ++ evs2).
    simpl in Ht1. rewrite Ht2, Ht1, app_assoc, length_app.
    split_and!; [done | by apply Forall_app | simpl; lia].
  - exists evs1. split_and!; [done | done | simpl; lia].
Qed.

Lemma relaxes_from_visits cur evs :
  Forall (relaxes_from cur) evs →
  visits evs = [] ∧ length (relaxations evs) = length evs.
Proof.
  induction 1 as [|e evs He _ [IH1 IH2]]; [done|].
  destruct e as [u D X|u v upd D]; [done|].
  split; [exact IH1|].
  change (S (length (relaxations evs)) = S (length evs)). by rewrite IH2.
Qed.

(** A turn of the loop either discards a stale entry and leaves table,
    visited set and trace alone, or visits the popped node: it appends the
    [visit_node] event of the node and then [relax_edge] events out of this
    node only, at most one for each of its items, and it leaves the entries
    of the visited nodes alone. *)
Lemma iteration_shape g st o :
  iteration g st = Some o →
  (trace (state_of o) = trace st ∧ visited (state_of o) = visited st ∧
   distances (state_of o) = distances st) ∨
  (∃ cd cur q' evs,
     heappop (priority_queue st) = Some ((cd, cur), q') ∧
     (cur ∉ visited st) ∧
     trace (state_of o) =
       trace st ++
       visit_node cur (distances st) ({[cur]} ∪ visited st) :: evs ∧
     Forall (relaxes_from cur) evs ∧
     (length evs ≤ from_option length 0 (g !! cur))%nat ∧
     visited (state_of o) = {[cur]} ∪ visited st ∧
     (∀ u, u ∈ {[cur]} ∪ visited st →
        distances (state_of o) !! u = distances st !! u)).
Proof.
  unfold iteration.
  destruct (heappop (priority_queue st)) as [[[cd cur] q']|] eqn:Hpop; [|done].
  destruct (decide (cur ∈ visited st)) as [Hcur|Hcur].
  { intros [= <-]. by left. }
  destruct (g !! cur) as [items|] eqn:Hg; intros [= <-];
    right; exists cd, cur, q'.
  - match goal with |- context [relax_edges _ _ _ ?s] =>
      destruct (relax_edges_events cur cd items s) as (evs & Ht & Hf & Hl);
      pose proof (relax_edges_frame cur cd items s) as [HV HD] end.
    exists evs. rewrite Hg. simpl in *. split_and!; try done.
    by rewrite Ht, <- app_assoc.
  - exists []. rewrite Hg. simpl. split_and!; try done.
Qed.

(** *** How the events of a trace are grouped and how many there are *)

Lemma grouped_extend t cur Dv X evs :
  grouped t →
  Forall (relaxes_from cur) evs →
  grouped (t ++ visit_node cur Dv X :: evs).
Proof.
  intros Hg Hf i u v upd D Hi.
  destruct (decide (i < length t)%nat) as [Hlt|Hge].
  - rewrite lookup_app_l in Hi by done.
    rewrite take_app_le by lia. by eapply Hg.
  - rewrite lookup_app_r in Hi by lia.
    rewrite take_app_ge by lia.
    destruct (i - length t)%nat as [|k] eqn:Hk; [done|].
    simpl in Hi. rewrite firstn_cons, visits_app, visits_cons_visit.
    destruct (relaxes_from_visits cur (take k evs)) as [-> _];
      [by apply Forall_take|].
    rewrite last_snoc. f_equal.
    rewrite Forall_forall in Hf. symmetry.
    apply (Hf (relax_edge u v upd D)). by eapply list_elem_of_lookup_2.
Qed.

Lemma relaxations_app t1 t2 :
  relaxations (t1 ++ t2) = relaxations t1 ++ relaxations t2.
Proof. unfold relaxations. apply omap_app. Qed.

Lemma length_visits_relaxations t :
  length t = (length (visits t) + length (relaxations t))%nat.
Proof.
  induction t as [|e t IH]; [done|].
  destruct e as [u D X|u v upd D].
  - change (S (length t) =
            (S (length (visits t)) + length (relaxations t))%nat). lia.
  - change (S (length t) =
            (length (visits t) + S (length (relaxations t)))%nat). lia.
Qed.

(** X7. In the events that a call adds to the trace, every [relax_edge]
    event is out of the node of the [visit_node] event that comes last
    before it: the relaxations of a node follow its visit, before the next
    visit. *)
Theorem relax_source_is_last_visited self start_node r self' new i u v upd D :
  run self start_node = Some (r, self') →
  steps self' = steps self ++ new →
  new !! i = Some (relax_edge u v upd D) →
  last (visits (take i new)) = Some u.
Proof.
  intros Hrun Hnew Hi.
  apply run_unfold in Hrun as (o & Ho & _ & ->). simpl in Hnew.
  assert (∃ new', trace (state_of o) = steps self ++ new' ∧ grouped new')
    as (new' & Ht & Hg).
  { apply (while_loop_invariant
      (λ st, ∃ new', trace st = steps self ++ new' ∧ grouped new')
      (graph self) (initial_state self start_node))
      with (fuel := enough_fuel (graph self)) (o := o); [| |done].
    - exists []. split; [by rewrite app_nil_r|]. by intros ?.
    - intros st o' _ (new1 & Ht1 & Hg1) Hit.
      destruct (iteration_shape _ _ _ Hit)
        as [(Ht & _)|(cd & cur & q' & evs & _ & _ & Ht & Hf & _)].
      + exists new1. by rewrite Ht.
      + eexists. split; [by rewrite Ht, Ht1, <- app_assoc|].
        by apply grouped_extend. }
  rewrite Hnew in Ht. apply app_inv_head in Ht as <-. by eapply Hg.
Qed.

Lemma relax_source_is_last_visited_witness :
  last (visits (take 1 disconnected_trace)) = Some "A".
Proof.
  apply (relax_source_is_last_visited (init disconnected_graph) "A"
    (Returns disconnected_distances disconnected_trace)
    {| graph := disconnected_graph; steps := disconnected_trace |}
    disconnected_trace 1 "A" "B" 1 disconnected_distances);
    [vm_compute; reflexivity | reflexivity | reflexivity].
Defined.

(** X8. The trace of one call is bounded by the size of the graph: the
    call adds at most one [visit_node] event for each key of the graph and
    the start node, and at most one [relax_edge] event for each item of the
    adjacency dicts, and nothing else; this holds also when the call
    raises. *)
Theorem trace_length_bound self start_node r self' new :
  run self start_node = Some (r, self') →
  steps self' = steps self ++ new →
  (length (visits new) ≤ size ({[start_node]} ∪ dom (graph self)))%nat ∧
  (length (relaxations new) ≤ edge_count (graph self))%nat ∧
  length new = (length (visits new) + length (relaxations new))%nat.
Proof.
  intros Hrun Hnew.
  destruct (run_new_history _ _ _ _ _ Hrun Hnew) as (Df & Vf & Hh & _).
  apply run_unfold in Hrun as (o & Ho & _ & ->). simpl in Hnew.
  pose proof (while_loop_inv _ _ _ _ Ho) as Hinv.
  split_and!; [| |apply length_visits_relaxations].
  - destruct (inv_history _ _ _ _ Hinv) as (new' & Ht & Hh').
    rewrite Hnew in Ht. apply app_inv_head in Ht as <-.
    destruct (history_visits _ _ _ _ _ Hh') as [Hnd HV].
    rewrite <- (size_list_to_set (C := gset node)) by done. rewrite <- HV.
    apply subseteq_size. rewrite <- (inv_dom _ _ _ _ Hinv).
    intros x Hx. destruct (inv_visited_fin _ _ _ _ Hinv x Hx) as [d Hd].
    apply elem_of_dom. eauto.
  - assert (∃ new', trace (state_of o) = steps self ++ new' ∧
      (length (relaxations new') +
       edge_count (remaining (graph self) (visited (state_of o)))
       ≤ edge_count (graph self))%nat) as (new' & Ht & Hle).
    { apply (while_loop_invariant
        (λ st, ∃ new', trace st = steps self ++ new' ∧
           (length (relaxations new') +
            edge_count (remaining (graph self) (visited st))
            ≤ edge_count (graph self))%nat)
        (graph self) (initial_state self start_node))
        with (fuel := enough_fuel (graph self)) (o := o); [| |done].
      - exists []. split; [by rewrite app_nil_r|]. simpl.
        by rewrite remaining_empty.
      - intros st o' _ (new1 & Ht1 & Hle1) Hit.
        destruct (iteration_shape _ _ _ Hit)
          as [(Ht & HV & _)
             |(cd & cur & q' & evs & _ & Hcur & Ht & Hf & Hl & HV & _)].
        + exists new1. by rewrite Ht, HV.
        + eexists. split; [by rewrite Ht, Ht1, <- app_assoc|].
          rewrite relaxations_app. change (relaxations (?e :: evs))
            with (relaxations evs).
          destruct (relaxes_from_visits _ _ Hf) as [_ Hlen].
          rewrite length_app, Hlen, HV, remaining_visit.
          destruct (graph self !! cur) as [items|] eqn:Hg; simpl in Hl.
          * rewrite (edge_count_delete
              (remaining (graph self) (visited st)) cur items) in Hle1
              by (by apply map_lookup_filter_Some_2).
            lia.
          * rewrite delete_id; [lia|].
            apply map_lookup_filter_None. by left. }
    rewrite Hnew in Ht. apply app_inv_head in Ht as <-. lia.
Qed.

Lemma trace_length_bound_witness :
  (length (visits disconnected_trace)
   ≤ size ({["A"]} ∪ dom disconnected_graph))%nat ∧
  (length (relaxations disconnected_trace)
   ≤ edge_count disconnected_graph)%nat ∧
  length disconnected_trace =
    (length (visits disconnected_trace) +
     length (relaxations disconnected_trace))%nat.
Proof.
  apply (trace_length_bound (init disconnected_graph) "A"
    (Returns disconnected_distances disconnected_trace)
    {| graph := disconnected_graph; steps := disconnected_trace |}
    disconnected_trace); [vm_compute; reflexivity | reflexivity].
Defined.

(** *** Within the contract: the order of the visits and what they fix *)

Section visit_order.

Variable g : gmap node (list (node * Z)).
Variable start_node : node.
Variable steps0 : list step.
Hypothesis Hnonneg :
  ∀ u items v w, g !! u = Some items → (v, w) ∈ items → 0 <= w.
Hypothesis Hclosed :
  ∀ u items v w, g !! u = Some items → (v, w) ∈ items → v ∈ dom g.
Hypothesis Hstart : start_node ∈ dom g.

Lemma loop_head_sorted st :
  loop_head g (initial_state {| graph := g; steps := steps0 |} start_node) st →
  ∃ new, trace st = steps0 ++ new ∧
         sorted_visits (distances st) (visits new).
Proof.
  induction 1 as [|st st' Hhead (new & Ht & Hs) Hit].
  { exists []. split; [by rewrite app_nil_r|]. by intros ?. }
  pose proof (inv_loop_head _ _ _ _ Hhead) as Hinv.
  pose proof (loop_head_within g start_node steps0 Hnonneg Hclosed Hstart
    _ Hhead) as [_ Hle].
  destruct (inv_history _ _ _ _ Hinv) as (new' & Ht' & Hh).
  rewrite Ht in Ht'. apply app_inv_head in Ht' as <-.
  destruct (history_visits _ _ _ _ _ Hh) as [_ HV].
  destruct (iteration_shape _ _ _ Hit)
    as [(Ht1 & _ & HD1)
       |(cd & cur & q' & evs & Hpop & Hcur & Ht1 & Hf & _ & _ & HD1)];
    simpl in Ht1, HD1.
  { exists new. by rewrite Ht1, HD1. }
  pose proof (popped_distance _ _ _ _ _ _ _ Hinv Hpop Hcur) as HDcur.
  eexists. split; [by rewrite Ht1, Ht, <- app_assoc|].
  rewrite visits_app, visits_cons_visit.
  destruct (relaxes_from_visits _ _ Hf) as [-> _].
  assert (∀ k x, visits new !! k = Some x → x ∈ visited st) as Hin.
  { intros k x Hx. rewrite HV. apply elem_of_list_to_set.
    by eapply list_elem_of_lookup_2. }
  intros i j ui uj di dj Hij Hi Hj Hdi Hdj.
  apply lookup_app_Some in Hj as [Hj|[Hlen Hj]].
  - assert (visits new !! i = Some ui) as Hi'.
    { apply lookup_lt_Some in Hj. by rewrite lookup_app_l in Hi by lia. }
    rewrite HD1 in Hdi, Hdj by (apply elem_of_union_r; by eapply Hin).
    by apply (Hs i j ui uj).
  - apply list_lookup_singleton_Some in Hj as [_ <-].
    rewrite HD1, HDcur in Hdj by set_solver. injection Hdj as <-.
    apply lookup_app_Some in Hi as [Hi|[_ Hi]].
    + rewrite HD1 in Hdi by (apply elem_of_union_r; by eapply Hin).
      apply (Hle ui di cd cur); [by eapply Hin | done |].
      by eapply heappop_elem.
    + apply list_lookup_singleton_Some in Hi as [_ <-].
      rewrite HD1, HDcur in Hdi by set_solver. injection Hdi as <-. lia.
Qed.

End visit_order.

(** Within the contract a call ends at a loop head with an empty queue at
    which the invariants hold, and it returns the table and the trace of
    this head. *)
Lemma run_within_contract self start_node r self' new :
  nonnegative (graph self) →
  closed (graph self) →
  start_node ∈ dom (graph self) →
  run self start_node = Some (r, self') →
  steps self' = steps self ++ new →
  ∃ st,
    r = Returns (distances st) (trace st) ∧
    trace st = steps self ++ new ∧
    loop_head (graph self) (initial_state self start_node) st ∧
    priority_queue st = [] ∧
    inv (graph self) start_node (steps self) st ∧
    head_inv (graph self) st ∧
    history (graph self) (initial_distances (graph self) start_node) new
      (distances st) (visited st).
Proof.
  intros Hnn Hcl Hstart Hrun Hnew.
  destruct (run_returns self start_node Hnn Hcl Hstart)
    as (st & Hhead & Hq & Hrun').
  rewrite Hrun in Hrun'. injection Hrun' as -> ->. simpl in Hnew.
  destruct self as [g steps0]. cbn [graph steps] in *.
  pose proof (inv_loop_head _ _ _ _ Hhead) as Hinv.
  destruct (inv_history _ _ _ _ Hinv) as (new' & Ht & Hh).
  rewrite Hnew in Ht. apply app_inv_head in Ht as <-.
  exists st. split_and!; try done.
  apply (loop_head_within g start_node steps0
    (λ u items v w, nonnegative_edge g u items v w Hnn)
    (λ u items v w, closed_edge g u items v w Hcl) Hstart _ Hhead).
Qed.

(** X9. Within the contract the nodes are visited by distance: the
    distances that the returned table gives to the nodes of the
    [visit_node] events do not decrease along the trace. *)
Theorem visits_by_nondecreasing_distance self start_node D t self' new
    i j ui uj :
  nonnegative (graph self) →
  closed (graph self) →
  start_node ∈ dom (graph self) →
  run self start_node = Some (Returns D t, self') →
  steps self' = steps self ++ new →
  (i ≤ j)%nat →
  visits new !! i = Some ui →
  visits new !! j = Some uj →
  ∃ di dj, D !! ui = Some (Fin di) ∧ D !! uj = Some (Fin dj) ∧ di <= dj.
Proof.
  intros Hnn Hcl Hstart Hrun Hnew Hij Hi Hj.
  destruct (run_within_contract _ _ _ _ _ Hnn Hcl Hstart Hrun Hnew)
    as (st & [= -> ->] & Ht & Hhead & _ & Hinv & _ & Hh).
  destruct self as [g steps0]. cbn [graph steps] in *.
  destruct (loop_head_sorted g start_node steps0
    (λ u items v w, nonnegative_edge g u items v w Hnn)
    (λ u items v w, closed_edge g u items v w Hcl) Hstart _ Hhead)
    as (new' & Ht' & Hs).
  rewrite Ht in Ht'. apply app_inv_head in Ht' as <-.
  destruct (history_visits _ _ _ _ _ Hh) as [_ HV].
  assert (∀ k x, visits new !! k = Some x →
            ∃ d, distances st !! x = Some (Fin d)) as Hfin.
  { intros k x Hx. apply (inv_visited_fin _ _ _ _ Hinv). rewrite HV.
    apply elem_of_list_to_set. by eapply list_elem_of_lookup_2. }
  destruct (Hfin _ _ Hi) as [di Hdi], (Hfin _ _ Hj) as [dj Hdj].
  exists di, dj. split_and!; [done | done |]. by apply (Hs i j ui uj).
Qed.

Lemma visits_by_nondecreasing_distance_witness :
  ∃ di dj, disconnected_distances !! "A" = Some (Fin di) ∧
           disconnected_distances !! "B" = Some (Fin dj) ∧ di <= dj.
Proof.
  apply (visits_by_nondecreasing_distance (init disconnected_graph) "A"
    disconnected_distances disconnected_trace
    {| graph := disconnected_graph; steps := disconnected_trace |}
    disconnected_trace 0 1 "A" "B");
    try (apply (bool_decide_unpack _); vm_compute; exact I);
    try (vm_compute; reflexivity).
Defined.

(** X10. Within the contract a node is visited only when its distance is
    settled: in the snapshot of a [visit_node] event, the node of the
    event, and every node of the visited set that the event records,
    already has the weight of a shortest path from the start node. *)
Theorem visit_snapshot_is_shortest self start_node r self' new i u Du X x :
  nonnegative (graph self) →
  closed (graph self) →
  start_node ∈ dom (graph self) →
  run self start_node = Some (r, self') →
  steps self' = steps self ++ new →
  new !! i = Some (visit_node u Du X) →
  x ∈ X →
  u ∈ X ∧
  ∃ d, Du !! x = Some (Fin d) ∧ shortest (graph self) start_node x d.
Proof.
  intros Hnn Hcl Hstart Hrun Hnew Hi Hx.
  destruct (run_within_contract _ _ _ _ _ Hnn Hcl Hstart Hrun Hnew)
    as (st & _ & _ & _ & Hq & Hinv & Hhd & Hh).
  split; [by eapply history_visit_member|].
  destruct (history_final _ _ _ _ _ _ _ _ _ Hh Hi) as [HX Hfin].
  assert (distances st !! x = Du !! x) as Heq.
  { apply (Hfin (length new) (distances st)); [|by eapply history_last|done].
    by apply lookup_lt_Some in Hi. }
  destruct (inv_visited_fin _ _ _ _ Hinv x (HX x Hx)) as [d Hd].
  exists d. rewrite <- Heq. split; [done|]. split; [by eapply inv_path|].
  intros p Hp. destruct self as [g steps0]. cbn [graph steps] in *.
  destruct (final_lower_bound g start_node steps0 st x p Hinv Hhd Hq Hp)
    as (_ & dv & Hdv & Hle).
  rewrite Hd in Hdv. by injection Hdv as <-.
Qed.

Lemma visit_snapshot_is_shortest_witness :
  "B" ∈ ({["B"]} ∪ {["A"]} : gset node) ∧
  ∃ d, disconnected_distances !! "B" = Some (Fin d) ∧
       shortest disconnected_graph "A" "B" d.
Proof.
  apply (visit_snapshot_is_shortest (init disconnected_graph) "A"
    (Returns disconnected_distances disconnected_trace)
    {| graph := disconnected_graph; steps := disconnected_trace |}
    disconnected_trace 2 "B" disconnected_distances
    ({["B"]} ∪ {["A"]}) "B");
    try (apply (bool_decide_unpack _); vm_compute; exact I);
    try (vm_compute; reflexivity).
Defined.

(** X11. Within the contract the returned table cannot be improved along
    any edge: for every edge out of a node that can be reached from the
    start node, both ends have a finite distance and the distance of the
    destination is at most the distance of the source plus the weight. *)
Theorem returned_table_is_relaxed self start_node D t self' u items v w :
  nonnegative (graph self) →
  closed (graph self) →
  start_node ∈ dom (graph self) →
  run self start_node = Some (Returns D t, self') →
  reachable (graph self) start_node u →
  graph self !! u = Some items →
  (v, w) ∈ items →
  ∃ du dv, D !! u = Some (Fin du) ∧ D !! v = Some (Fin dv) ∧ dv <= du + w.
Proof.
  intros Hnn Hcl Hstart Hrun [p Hp] Hg Hin.
  destruct (run_history _ _ _ _ Hrun) as (new & _ & _ & -> & _ & _).
  destruct (run_within_contract _ _ _ _ new Hnn Hcl Hstart Hrun eq_refl)
    as (st & [= -> ->] & _ & _ & Hq & Hinv & Hhd & _).
  destruct self as [g steps0]. cbn [graph steps] in *.
  destruct (final_lower_bound g start_node steps0 st u p Hinv Hhd Hq Hp)
    as (Hu & _).
  apply (hd_done _ _ Hhd u items v w Hu Hg Hin).
Qed.

Lemma returned_table_is_relaxed_witness :
  ∃ du dv, disconnected_distances !! "A" = Some (Fin du) ∧
           disconnected_distances !! "B" = Some (Fin dv) ∧ dv <= du + 1.
Proof.
  apply (returned_table_is_relaxed (init disconnected_graph) "A"
    disconnected_distances disconnected_trace
    {| graph := disconnected_graph; steps := disconnected_trace |}
    "A" [("B", 1)] "B" 1);
    try (apply (bool_decide_unpack _); vm_compute; exact I);
    try (vm_compute; reflexivity).
  exists 0. constructor.
Defined.

(** *** Calls on an engine that has run before, and calls on any graph *)

Lemma result_of_prefix t0 o :
  result_of (outcome_prefix t0 o) = result_prefix t0 (result_of o).
Proof. by destruct o. Qed.

(** X12. What a call does is independent of what the engine has recorded
    before: on an engine that holds any events, a call returns the table,
    or raises the exception, of the same call on a fresh engine for the
    same graph, and it leaves the old events, unchanged, followed by the
    events of the fresh call; this holds also when the call raises. *)
Theorem run_is_independent_of_history self start_node r e :
  run (init (graph self)) start_node = Some (r, e) →
  run self start_node =
    Some (result_prefix (steps self) r,
          {| graph := graph self; steps := steps self ++ steps e |}).
Proof.
  intros Hrun. apply run_unfold in Hrun as (o & Ho & -> & ->).
  destruct self as [g t0]. cbn [graph steps init] in *.
  by rewrite (run_prefix g t0 start_node o Ho), result_of_prefix.
Qed.

Lemma run_is_independent_of_history_witness :
  run {| graph := dangling_graph; steps := disconnected_trace |} "A" =
    Some (result_prefix disconnected_trace (Raises (KeyError "Z")),
          {| graph := dangling_graph;
             steps := disconnected_trace ++
               steps {| graph := dangling_graph;
                        steps :=
                          [visit_node "A"
                             (initial_distances dangling_graph "A") {["A"]};
                           relax_edge "A" "B" 2
                             (<["B" := Fin 2]>
                                (initial_distances dangling_graph "A"))] |}
          |}).
Proof.
  apply (run_is_independent_of_history
    {| graph := dangling_graph; steps := disconnected_trace |} "A").
  vm_compute. reflexivity.
Defined.

(** X13. For every graph and every start node, negative weights, cycles
    of negative weight and dangling edges included, the loop ends within
    [2 + |E|] turns, [|E|] being the number of items of the adjacency
    dicts: with that much fuel or more [run] returns or raises, and more
    fuel does not change what it does. *)
Theorem run_always_ends self start_node fuel :
  (enough_fuel (graph self) ≤ fuel)%nat →
  ∃ r self',
    run_fuel fuel self start_node = Some (r, self') ∧
    run self start_node = Some (r, self').
Proof.
  intros Hfuel.
  destruct (run_total self start_node) as [[r self'] Hrun].
  exists r, self'. by rewrite run_fuel_enough.
Qed.

Lemma run_always_ends_witness :
  ∃ r self',
    run_fuel 10 (init negative_cycle_graph) "A" = Some (r, self') ∧
    run (init negative_cycle_graph) "A" = Some (r, self').
Proof.
  apply (run_always_ends (init negative_cycle_graph) "A" 10).
  vm_compute. lia.
Defined.

(** *** The queue and the guard of the relaxation *)

(** X14. At every head of the loop of a call, on every graph, the queue
    is consistent with the table: the node of every entry has a finite
    distance in the table, at most the distance of the entry, so a stale
    entry only overestimates; and every node that is not yet visited and
    has a finite distance has an entry with exactly this distance, so the
    best candidate of a discovered node is never lost. *)
Theorem queue_matches_table self start_node st :
  loop_head (graph self) (initial_state self start_node) st →
  (∀ d u, (d, u) ∈ priority_queue st →
     ∃ d', distances st !! u = Some (Fin d') ∧ d' <= d) ∧
  (∀ u d, u ∉ visited st → distances st !! u = Some (Fin d) →
     (d, u) ∈ priority_queue st).
Proof.
  destruct self as [g steps0]. cbn [graph]. intros Hhead.
  apply inv_loop_head in Hhead. split.
  - apply (inv_queue_ub _ _ _ _ Hhead).
  - apply (inv_queue_has _ _ _ _ Hhead).
Qed.

Lemma queue_matches_table_witness :
  (∀ d u,
     (d, u) ∈ priority_queue (initial_state (init example_graph) "A") →
     ∃ d', distances (initial_state (init example_graph) "A") !! u
             = Some (Fin d') ∧ d' <= d) ∧
  (∀ u d,
     u ∉ visited (initial_state (init example_graph) "A") →
     distances (initial_state (init example_graph) "A") !! u
       = Some (Fin d) →
     (d, u) ∈ priority_queue (initial_state (init example_graph) "A")).
Proof.
  apply (queue_matches_table (init example_graph) "A").
  apply loop_head_first.
Defined.

Lemma history_relax_target g start_node t D V i u v upd Dv :
  history g (initial_distances g start_node) t D V →
  t !! i = Some (relax_edge u v upd Dv) →
  (v ∉ visits (take i t)) ∧ u ∈ visits (take i t) ∧ v ≠ start_node.
Proof.
  intros H. revert i.
  induction H
    as [|t D V u' d H IH Hu HD
        |t D V u' items v' w du old H IH Hu Hv Hg Hin Hdu Hold Hlt];
    intros i Hi; [done| |];
    (apply lookup_app_Some in Hi as [Hi|[Hle Hi]];
     [apply lookup_lt_Some in Hi as Hlen; rewrite take_app_le by lia;
      by apply IH|]);
    apply list_lookup_singleton_Some in Hi as [Hi Heq]; [done|].
  injection Heq as <- <- <- <-.
  assert (i = length t) as -> by lia. rewrite take_app_length.
  destruct (history_visits _ _ _ _ _ H) as [_ HV].
  destruct (history_start _ _ _ _ _ H) as [_ Hfirst].
  rewrite HV in Hu, Hv. rewrite elem_of_list_to_set in Hu, Hv.
  split_and!; [done | done |].
  intros ->. apply Hv. apply (elem_of_list_to_set (C := gset node)).
  rewrite <- HV. apply (Hfirst u'). rewrite HV.
  by apply elem_of_list_to_set.
Qed.

(** X15. On every graph, a relaxation never touches a visited node: the
    destination of a [relax_edge] event is the node of no [visit_node]
    event before it, while its source is; so the destination is neither
    the source, a self-loop being never relaxed, nor the start node. *)
Theorem relax_destination_is_unvisited self start_node r self' new
    i u v upd D :
  run self start_node = Some (r, self') →
  steps self' = steps self ++ new →
  new !! i = Some (relax_edge u v upd D) →
  (v ∉ visits (take i new)) ∧ u ∈ visits (take i new) ∧
  v ≠ u ∧ v ≠ start_node.
Proof.
  intros Hrun Hnew Hi.
  destruct (run_new_history _ _ _ _ _ Hrun Hnew) as (Df & Vf & Hh & _).
  destruct (history_relax_target _ _ _ _ _ _ _ _ _ _ Hh Hi)
    as (Hv & Hu & Hs).
  split_and!; try done. by intros ->.
Qed.

Lemma relax_destination_is_unvisited_witness :
  ("B" ∉ visits (take 1 disconnected_trace)) ∧
  "A" ∈ visits (take 1 disconnected_trace) ∧
  "B" ≠ "A" ∧ "B" ≠ "A".
Proof.
  apply (relax_destination_is_unvisited (init disconnected_graph) "A"
    (Returns disconnected_distances disconnected_trace)
    {| graph := disconnected_graph; steps := disconnected_trace |}
    disconnected_trace 1 "A" "B" 1 disconnected_distances);
    [vm_compute; reflexivity | reflexivity | reflexivity].
Defined.

(** ** Relaxation, exactly when a candidate improves *)

Lemma expected_relaxations_from cur X items D :
  Forall (relaxes_from cur) (expected_relaxations cur X items D).
Proof.
  revert D. induction items as [|[v w] items IH]; intros D; simpl; [done|].
  destruct (decide (v ∈ X)); [done|].
  destruct (D !! cur) as [[dc|]|]; [|done|done].
  destruct (D !! v) as [old|]; [|done].
  destruct (lt_dist (dc + w) old); [|done]. by constructor.
Qed.

(** What the loop over the items appends to the trace is what the design
    document asks for. *)
Lemma relax_edges_expected cur cd its st :
  cur ∈ visited st →
  distances st !! cur = Some (Fin cd) →
  trace (state_of (relax_edges cur cd its st)) =
  trace st ++ expected_relaxations cur (visited st) its (distances st).
Proof.
  revert st. induction its as [|[v w] its IH]; intros st Hcur HD;
    cbn [relax_edges expected_relaxations]; [by rewrite app_nil_r|].
  unfold relax.
  destruct (decide (v ∈ visited st)) as [Hv|Hv]; [by apply IH|].
  rewrite HD.
  destruct (distances st !! v) as [old|] eqn:Hold;
    [|simpl; by rewrite app_nil_r].
  destruct (lt_dist (cd + w) old); [|by apply IH].
  rewrite IH; simpl; [by rewrite <- app_assoc | done |].
  rewrite lookup_insert_ne; [done|]. by intros <-.
Qed.

Lemma iteration_block g start_node steps0 st o :
  inv g start_node steps0 st →
  iteration g st = Some o →
  (trace (state_of o) = trace st ∧ distances (state_of o) = distances st) ∨
  (∃ cd cur q',
     heappop (priority_queue st) = Some ((cd, cur), q') ∧
     (cur ∉ visited st) ∧
     trace (state_of o) =
       trace st ++
       visit_node cur (distances st) ({[cur]} ∪ visited st) ::
       match g !! cur with
       | Some items =>
           expected_relaxations cur ({[cur]} ∪ visited st) items
             (distances st)
       | None => []
       end).
Proof.
  intros Hinv. unfold iteration.
  destruct (heappop (priority_queue st)) as [[[cd cur] q']|] eqn:Hpop; [|done].
  destruct (decide (cur ∈ visited st)) as [Hcur|Hcur].
  { intros [= <-]. by left. }
  pose proof (popped_distance _ _ _ _ _ _ _ Hinv Hpop Hcur) as HD.
  destruct (g !! cur) as [items|] eqn:Hg; intros [= <-];
    right; exists cd, cur, q'; rewrite Hg; (split_and!; [done | done |]).
  - rewrite relax_edges_expected; simpl; [by rewrite <- app_assoc| |done].
    set_solver.
  - done.
Qed.

Lemma blocks_extend g t cur D X :
  blocks_as_expected g t →
  blocks_as_expected g
    (t ++ visit_node cur D X ::
       match g !! cur with
       | Some items => expected_relaxations cur X items D
       | None => []
       end).
Proof.
  intros Hb i u Du Xu items Hi Hg.
  destruct (decide (i < length t)%nat) as [Hlt|Hge].
  - rewrite lookup_app_l in Hi by done.
    destruct (Hb i u Du Xu items Hi Hg) as (rest & Hdrop & Hrest).
    eexists. rewrite drop_app_le by lia. rewrite Hdrop, <- app_assoc.
    split; [done|]. right.
    destruct Hrest as [->|(u' & D' & X' & rest' & ->)]; simpl; eauto.
  - rewrite lookup_app_r in Hi by lia.
    destruct (i - length t)%nat as [|k] eqn:Hk.
    + injection Hi as <- <- <-. rewrite Hg. exists [].
      rewrite app_nil_r. split; [|by left].
      rewrite drop_app_ge by lia.
      by replace (S i - length t)%nat with 1%nat by lia.
    + exfalso. simpl in Hi. apply list_elem_of_lookup_2 in Hi.
      destruct (g !! cur) as [its|]; [|by apply elem_of_nil in Hi].
      pose proof (expected_relaxations_from cur X its D) as Hf.
      rewrite Forall_forall in Hf. apply (Hf _ Hi).
Qed.

(** The events that a call adds are grouped in blocks as expected. *)
Lemma run_blocks self start_node r self' new :
  run self start_node = Some (r, self') →
  steps self' = steps self ++ new →
  blocks_as_expected (graph self) new.
Proof.
  intros Hrun Hnew.
  apply run_unfold in Hrun as (o & Ho & _ & ->). simpl in Hnew.
  destruct self as [g steps0]. cbn [graph steps] in *.
  assert (∃ new', trace (state_of o) = steps0 ++ new' ∧
                  blocks_as_expected g new') as (new' & Ht & Hb).
  { apply (while_loop_invariant
      (λ st, ∃ new', trace st = steps0 ++ new' ∧ blocks_as_expected g new')
      g (initial_state {| graph := g; steps := steps0 |} start_node))
      with (fuel := enough_fuel g) (o := o); [| |done].
    - exists []. split; [by rewrite app_nil_r|]. by intros ?.
    - intros st o' Hhead (new1 & Ht1 & Hb1) Hit.
      apply inv_loop_head in Hhead.
      destruct (iteration_block _ _ _ _ _ Hhead Hit)
        as [[Ht _]|(cd & cur & q' & _ & _ & Ht)].
      + exists new1. by rewrite Ht.
      + eexists. split; [by rewrite Ht, Ht1, <- app_assoc|].
        by apply blocks_extend. }
  rewrite Hnew in Ht. by apply app_inv_head in Ht as <-.
Qed.

Lemma relax_keeps_le cur cd st item x d :
  distances st !! x = Some (Fin d) →
  ∃ d', distances (state_of (relax cur cd st item)) !! x = Some (Fin d') ∧
        d' <= d.
Proof.
  intros Hx. destruct item as [v w]. unfold relax.
  destruct (decide (v ∈ visited st)); [exists d; split; [done|lia]|].
  destruct (distances st !! v) as [old|] eqn:Hold;
    [|exists d; split; [done|lia]].
  destruct (lt_dist (cd + w) old) eqn:Hlt; [|exists d; split; [done|lia]].
  simpl. destruct (decide (x = v)) as [->|Hne].
  - exists (cd + w). rewrite lookup_insert_eq. split; [done|].
    apply lt_dist_spec in Hlt. rewrite Hx in Hold. injection Hold as <-.
    simpl in Hlt. lia.
  - exists d. rewrite lookup_insert_ne by done. split; [done|lia].
Qed.

Lemma relax_edges_keep_le cur cd its st x d :
  distances st !! x = Some (Fin d) →
  ∃ d', distances (state_of (relax_edges cur cd its st)) !! x
          = Some (Fin d') ∧ d' <= d.
Proof.
  revert st d. induction its as [|item its IH]; intros st d Hx;
    cbn [relax_edges]; [exists d; split; [done|lia]|].
  destruct (relax_keeps_le cur cd st item x d Hx) as (d1 & Hd1 & Hle1).
  destruct (relax cur cd st item) as [st1|e st1]; [|by exists d1].
  destruct (IH st1 d1 Hd1) as (d2 & Hd2 & Hle2). exists d2.
  split; [done|lia].
Qed.

(** After the body of the loop over the items has run for an item whose
    neighbour is not visited, the candidate no longer improves the entry
    of the neighbour. *)
Lemma relax_bound cur cd st v w st' :
  relax cur cd st (v, w) = Normal st' →
  v ∉ visited st →
  ∃ dv, distances st' !! v = Some (Fin dv) ∧ dv <= cd + w.
Proof.
  unfold relax. intros H Hv. destruct (decide (v ∈ visited st)); [done|].
  destruct (distances st !! v) as [old|] eqn:Hold; [|done].
  destruct (lt_dist (cd + w) old) eqn:Hlt; injection H as <-.
  - exists (cd + w). simpl. rewrite lookup_insert_eq. split; [done|lia].
  - apply lt_dist_false in Hlt. destruct old as [dv|]; [|done].
    by exists dv.
Qed.

Lemma relax_edges_bound cur cd its st st' :
  relax_edges cur cd its st = Normal st' →
  ∀ v w, (v, w) ∈ its → v ∉ visited st →
    ∃ dv, distances st' !! v = Some (Fin dv) ∧ dv <= cd + w.
Proof.
  revert st. induction its as [|[v w] its IH]; intros st;
    cbn [relax_edges].
  { intros _ v w Hin. by apply elem_of_nil in Hin. }
  pose proof (relax_frame st cur cd (v, w)) as [HV _].
  destruct (relax cur cd st (v, w)) as [st1|e st1] eqn:Hre; [|done].
  simpl in HV. intros Hres x y Hin Hx.
  apply elem_of_cons in Hin as [[= -> ->]|Hin].
  - destruct (relax_bound _ _ _ _ _ _ Hre Hx) as (d1 & Hd1 & Hle1).
    destruct (relax_edges_keep_le cur cd its st1 v d1 Hd1)
      as (d2 & Hd2 & Hle2).
    rewrite Hres in Hd2. exists d2. split; [done|lia].
  - apply (IH st1 Hres x y Hin). by rewrite HV.
Qed.

(** At every head of the loop, nothing is left to relax out of the nodes
    visited so far. *)
Lemma loop_head_relaxed g start_node steps0 st :
  loop_head g (initial_state {| graph := g; steps := steps0 |} start_node) st →
  ∃ new, trace st = steps0 ++ new ∧
         nothing_left_to_relax g new (distances st).
Proof.
  induction 1 as [|st st' Hhead (new & Ht & Hn) Hit].
  { exists []. split; [by rewrite app_nil_r|]. by intros ?. }
  apply inv_loop_head in Hhead as Hinv. revert Hit. unfold iteration.
  destruct (heappop (priority_queue st)) as [[[cd cur] q']|] eqn:Hpop; [|done].
  destruct (decide (cur ∈ visited st)) as [Hcur|Hcur].
  { intros [= <-]. by exists new. }
  pose proof (popped_distance _ _ _ _ _ _ _ Hinv Hpop Hcur) as HD.
  destruct (g !! cur) as [items|] eqn:Hg; [|done]. intros [= Hre].
  match type of Hre with relax_edges _ _ _ ?s = _ =>
    destruct (relax_edges_events cur cd items s) as (evs & Hevs & Hf & _);
    pose proof (relax_edges_bound cur cd items s st' Hre) as Hbound;
    pose proof (λ x d, relax_edges_keep_le cur cd items s x d) as Hkeep
  end.
  rewrite Hre in Hevs, Hkeep. simpl in Hevs, Hbound, Hkeep.
  eexists. split; [by rewrite Hevs, Ht, <- !app_assoc|].
  intros i u Du Xu its v w Hi Hgu Hin Hv.
  destruct (decide (i < length new)%nat) as [Hlt|Hge].
  - rewrite lookup_app_l in Hi by done.
    destruct (Hn i u Du Xu its v w Hi Hgu Hin Hv)
      as (dc & dv & Hdc & Hdv & Hle).
    destruct (Hkeep v dv Hdv) as (dv' & Hdv' & Hle').
    exists dc, dv'. split_and!; [done | done | lia].
  - rewrite lookup_app_r in Hi by lia.
    destruct (i - length new)%nat as [|k] eqn:Hk.
    + injection Hi as <- <- <-. rewrite Hg in Hgu. injection Hgu as <-.
      destruct (Hbound v w Hin Hv) as (dv & Hdv & Hle).
      by exists cd, dv.
    + exfalso. simpl in Hi. apply list_elem_of_lookup_2 in Hi.
      rewrite Forall_forall in Hf. apply (Hf _ Hi).
Qed.

(** C2. In the events that a call adds to the trace, a [relax_edge] event
    is recorded exactly when a candidate strictly improves the entry of
    the destination. Every [relax_edge] event is for an edge of the graph
    out of its source; its [updated_distance] is the entry of the source
    in the table, before as after the event, plus the weight of the edge;
    it is strictly below the entry that the destination had before, and
    the snapshot of the event is the table before with this one entry
    replaced. Conversely, the events that follow the [visit_node] event of
    a node, up to the next such event or the end of the trace, are exactly
    the ones that the rule gives, item after item: an event for each
    unvisited neighbour whose entry the candidate strictly improves, and
    none for a candidate equal to or above the entry. And when the call
    returns, no edge out of a visited node to a neighbour not visited
    before it is left with a candidate that still improves the returned
    table. *)
Theorem relax_edge_events self start_node r self' new :
  run self start_node = Some (r, self') →
  steps self' = steps self ++ new →
  (∀ i u v upd D, new !! i = Some (relax_edge u v upd D) →
     ∃ Dprev items w du old,
       tables (initial_distances (graph self) start_node) new !! i
         = Some Dprev ∧
       graph self !! u = Some items ∧ (v, w) ∈ items ∧
       Dprev !! u = Some (Fin du) ∧ D !! u = Some (Fin du) ∧
       upd = du + w ∧
       Dprev !! v = Some old ∧ dist_lt (Fin upd) old ∧
       D = <[v := Fin upd]> Dprev) ∧
  (∀ i cur D X items,
     new !! i = Some (visit_node cur D X) →
     graph self !! cur = Some items →
     ∃ rest,
       drop (S i) new = expected_relaxations cur X items D ++ rest ∧
       (rest = [] ∨
        ∃ u' D' X' rest', rest = visit_node u' D' X' :: rest')) ∧
  (∀ Dret t i cur D X items v w,
     r = Returns Dret t →
     new !! i = Some (visit_node cur D X) →
     graph self !! cur = Some items →
     (v, w) ∈ items →
     v ∉ X →
     ∃ dc dv, D !! cur = Some (Fin dc) ∧ Dret !! v = Some (Fin dv) ∧
              dv <= dc + w).
Proof.
  intros Hrun Hnew. split_and!.
  - intros i u v upd D Hi.
    destruct (run_new_history _ _ _ _ _ Hrun Hnew) as (Df & V & Hh & _).
    destruct (history_event _ _ _ _ _ _ _ Hh Hi) as (Dprev & HDp & Hok).
    destruct Hok as (items & w & du & old & Hok).
    by exists Dprev, items, w, du, old.
  - apply (run_blocks _ _ _ _ _ Hrun Hnew).
  - intros Dret t i cur D X items v w ->.
    destruct (run_end _ _ _ _ Hrun) as (o & Hr & -> & _ & Hcase).
    destruct Hcase as [(st & -> & Hhead & _)|(e' & st' & sth & -> & _)];
      [|done].
    injection Hr as -> ->. destruct self as [g steps0].
    cbn [graph steps] in *. simpl in Hnew.
    destruct (loop_head_relaxed _ _ _ _ Hhead) as (new' & Ht & Hn).
    rewrite Hnew in Ht. apply app_inv_head in Ht as <-. apply Hn.
Qed.

Lemma relax_edge_events_witness :
  (∀ i u v upd D, example_trace !! i = Some (relax_edge u v upd D) →
     ∃ Dprev items w du old,
       tables (initial_distances example_graph "A") example_trace !! i
         = Some Dprev ∧
       example_graph !! u = Some items ∧ (v, w) ∈ items ∧
       Dprev !! u = Some (Fin du) ∧ D !! u = Some (Fin du) ∧
       upd = du + w ∧
       Dprev !! v = Some old ∧ dist_lt (Fin upd) old ∧
       D = <[v := Fin upd]> Dprev) ∧
  (∀ i cur D X items,
     example_trace !! i = Some (visit_node cur D X) →
     example_graph !! cur = Some items →
     ∃ rest,
       drop (S i) example_trace = expected_relaxations cur X items D ++ rest ∧
       (rest = [] ∨
        ∃ u' D' X' rest', rest = visit_node u' D' X' :: rest')) ∧
  (∀ Dret t i cur D X items v w,
     Returns example_distances example_trace = Returns Dret t →
     example_trace !! i = Some (visit_node cur D X) →
     example_graph !! cur = Some items →
     (v, w) ∈ items →
     v ∉ X →
     ∃ dc dv, D !! cur = Some (Fin dc) ∧ Dret !! v = Some (Fin dv) ∧
              dv <= dc + w).
Proof.
  apply (relax_edge_events (init example_graph) "A"
    (Returns example_distances example_trace)
    {| graph := example_graph; steps := example_trace |}
    example_trace); [vm_compute; reflexivity | reflexivity].
Defined.

(** ** Two calls, on any runtime *)

Lemma render_app listing adds t1 t2 :
  render listing adds (t1 ++ t2) =
  render listing adds t1 ++ render listing (adds ++ visits t1) t2.
Proof.
  revert adds. induction t1 as [|e t1 IH]; intros adds; simpl.
  { by rewrite app_nil_r. }
  destruct e as [u D X|u v d D]; simpl; rewrite IH; [|done].
  by rewrite <- app_assoc.
Qed.

Lemma render_ext l1 l2 adds t :
  (∀ x, l1 x = l2 x) → render l1 adds t = render l2 adds t.
Proof.
  intros Hl. revert adds. induction t as [|e t IH]; intros adds; [done|].
  destruct e; simpl; by rewrite ?Hl, IH.
Qed.

Section same_point.
Context (rt : runtime) (heap : list entry → Prop) (Hrt : conforms rt heap).

Lemma relax_same_point cur cd st' st item :
  same_point rt heap st' st →
  outcome_same_point rt heap (relax_on rt cur cd st' item)
    (relax cur cd st item).
Proof.
  intros Hsp. pose proof Hsp as [HD Ha HV Hh HQ Ht].
  destruct item as [v w]. unfold relax_on, relax.
  destruct (decide (v ∈ rt_visited st')) as [Hin|Hnin],
    (decide (v ∈ visited st)) as [Hin2|Hnin2]; [done| | |].
  { exfalso. apply Hnin2. rewrite HV. by apply elem_of_list_to_set. }
  { exfalso. apply Hnin. rewrite HV in Hin2.
    by apply elem_of_list_to_set in Hin2. }
  rewrite HD. destruct (distances st !! v) as [old|]; [|done].
  destruct (lt_dist (cd + w) old); [|done].
  simpl. split; simpl.
  - done.
  - by rewrite visits_snoc, app_nil_r.
  - done.
  - by apply (cf_push_heap _ _ Hrt).
  - rewrite (cf_push_bag _ _ Hrt) by done. unfold heappush. by rewrite HQ.
  - by rewrite render_app, <- Ht.
Qed.

Lemma relax_edges_same_point cur cd its st' st :
  same_point rt heap st' st →
  outcome_same_point rt heap (relax_edges_on rt cur cd its st')
    (relax_edges cur cd its st).
Proof.
  revert st' st. induction its as [|item its IH]; intros st' st Hsp;
    cbn [relax_edges relax_edges_on]; [done|].
  pose proof (relax_same_point cur cd st' st item Hsp) as H1.
  destruct (relax_on rt cur cd st' item) as [st1'|e' st1'],
    (relax cur cd st item) as [st1|e st1]; try done.
  by apply IH.
Qed.

(** Whatever the layout of its heap, the runtime pops the entry that the
    model pops. *)
Lemma pop_same_entry q' q m' r' m r :
  heap q' → q' ≡ₚ q →
  rt_heappop rt q' = Some (m', r') → heappop q = Some (m, r) →
  m' = m ∧ r' ≡ₚ r.
Proof.
  intros Hh HQ Hpop' Hpop.
  assert (m' = m) as ->.
  { apply entry_le_antisym.
    - apply (cf_pop_least _ _ Hrt q' m' r' m Hh Hpop'). rewrite HQ.
      by eapply heappop_elem.
    - eapply heappop_least; [done|]. rewrite <- HQ.
      rewrite (cf_pop_bag _ _ Hrt _ _ _ Hh Hpop'). by left. }
  split; [done|]. apply (Permutation_cons_inv (a := m)).
  by rewrite <- (heappop_perm _ _ _ Hpop),
    <- (cf_pop_bag _ _ Hrt _ _ _ Hh Hpop').
Qed.

Lemma iteration_same_point g st' st :
  same_point rt heap st' st →
  option_Forall2 (outcome_same_point rt heap)
    (iteration_on rt g st') (iteration g st).
Proof.
  intros Hsp. pose proof Hsp as [HD Ha HV Hh HQ Ht].
  unfold iteration_on, iteration.
  destruct (rt_heappop rt (rt_queue st')) as [[[cd' cur'] r']|] eqn:Hpop',
    (heappop (priority_queue st)) as [[[cd cur] r]|] eqn:Hpop.
  - destruct (pop_same_entry _ _ _ _ _ _ Hh HQ Hpop' Hpop) as [[= -> ->] Hr].
    pose proof (cf_pop_heap _ _ Hrt _ _ _ Hh Hpop') as Hhr.
    destruct (decide (cur ∈ rt_visited st')) as [Hin|Hnin],
      (decide (cur ∈ visited st)) as [Hin2|Hnin2].
    + constructor. by split.
    + exfalso. apply Hnin2. rewrite HV. by apply elem_of_list_to_set.
    + exfalso. apply Hnin. rewrite HV in Hin2.
      by apply elem_of_list_to_set in Hin2.
    + match goal with
      | |- option_Forall2 _ (match _ with Some _ => Some (relax_edges_on _ _ _ _ ?s') | None => _ end)
             (match _ with Some _ => Some (relax_edges _ _ _ ?s) | None => _ end) =>
          assert (same_point rt heap s' s) as Hsp1
      end.
      { split; simpl.
        - done.
        - by rewrite visits_snoc, Ha.
        - rewrite list_to_set_app_L, HV. simpl. set_solver.
        - done.
        - done.
        - rewrite render_app, <- Ht. simpl. by rewrite <- Ha, HD. }
      destruct (g !! cur) as [items|]; constructor; [|done].
      by apply relax_edges_same_point.
  - exfalso. apply heappop_None in Hpop. rewrite Hpop in HQ.
    apply Permutation_nil_r in HQ.
    pose proof (cf_pop_bag _ _ Hrt _ _ _ Hh Hpop') as Hbag.
    rewrite HQ in Hbag. by apply Permutation_nil_cons in Hbag.
  - exfalso. apply (cf_pop_None _ _ Hrt _ Hh) in Hpop'.
    rewrite Hpop' in HQ. apply Permutation_nil_l in HQ.
    by rewrite <- HQ in Hpop.
  - constructor.
Qed.

Lemma while_loop_same_point g fuel st' st :
  same_point rt heap st' st →
  option_Forall2 (outcome_same_point rt heap)
    (while_loop_on fuel rt g st') (while_loop fuel g st).
Proof.
  revert st' st. induction fuel as [|fuel IH]; intros st' st Hsp;
    cbn [while_loop while_loop_on]; [constructor|].
  destruct (iteration_same_point g st' st Hsp) as [o' o Ho|];
    [|by constructor].
  destruct o' as [st1'|e1' st1'], o as [st1|e1 st1]; try done.
  - by apply IH.
  - by constructor.
Qed.

(** The run on the runtime is the run of the model, with every visited
    set listed by the runtime. *)
Lemma run_on_render g start_node :
  run_on rt g start_node =
  render_result (rt_list rt) <$> (fst <$> run (init g) start_node).
Proof.
  unfold run_on, run, run_fuel. cbn [graph init].
  assert (same_point rt heap (rt_initial_state g start_node)
            (initial_state (init g) start_node)) as Hsp.
  { split; simpl; try done. apply (cf_singleton _ _ Hrt). }
  destruct (while_loop_same_point g (enough_fuel g) _ _ Hsp) as [o' o Ho|];
    [|done].
  simpl. f_equal.
  destruct o' as [st'|e' st'], o as [st|e st]; try done; simpl.
  - destruct Ho as [HD _ _ _ _ Ht]. by rewrite HD, Ht.
  - by destruct Ho as [-> _].
Qed.

End same_point.

(** With the visited sets of the events read as sets again, the rendering
    of a record of the loop is the record itself. *)
Lemma as_set_render g D0 rt t D V :
  lists_elements rt →
  history g D0 t D V →
  as_set <$> render (rt_list rt) [] t = t.
Proof.
  intros Hl. induction 1 as [|t D V u d Hh IH Hu _|t D V u items v w du old Hh IH];
    [done| |]; rewrite render_app, fmap_app, IH; simpl; [|done].
  destruct (history_visits _ _ _ _ _ Hh) as [Hnd ->].
  do 3 f_equal. apply set_eq. intros x.
  assert (NoDup (visits t ++ [u])) as Hnd'; [|
    rewrite elem_of_list_to_set, (Hl _ Hnd'), elem_of_app,
      list_elem_of_singleton, elem_of_union, elem_of_singleton,
      elem_of_list_to_set; tauto].
  apply NoDup_app. split_and!; [done| |apply NoDup_singleton].
    intros x' Hx Hx'. apply list_elem_of_singleton in Hx' as ->.
    apply Hu. by apply elem_of_list_to_set.
Qed.

Lemma list_runtime_conforms : conforms list_runtime (λ _, True).
Proof.
  split; simpl; try done.
  - intros q _. apply heappop_None.
  - intros q m r _. apply heappop_perm.
  - intros q m r y _. apply heappop_least.
Qed.

Lemma append_runtime_conforms : conforms append_runtime (λ _, True).
Proof.
  split; simpl; try done.
  - intros q x _. by rewrite Permutation_app_comm.
  - intros q _. apply heappop_None.
  - intros q m r _. apply heappop_perm.
  - intros q m r y _. apply heappop_least.
Qed.

Lemma reverse_runtime_conforms : conforms reverse_runtime (λ _, True).
Proof.
  split; simpl; try done.
  - intros q _. apply heappop_None.
  - intros q m r _. apply heappop_perm.
  - intros q m r y _. apply heappop_least.
Qed.

Lemma reverse_runtime_lists : lists_elements reverse_runtime.
Proof. intros adds _. simpl. apply reverse_Permutation. Qed.

(** Every visit of a run is of a node that was least when popped. *)
Lemma run_popped_least self start_node r self' new :
  run self start_node = Some (r, self') →
  steps self' = steps self ++ new →
  Forall popped_least new.
Proof.
  intros Hrun Hnew.
  apply run_unfold in Hrun as (o & Ho & _ & ->). simpl in Hnew.
  destruct self as [g steps0]. cbn [graph steps] in *.
  assert (∃ new', trace (state_of o) = steps0 ++ new' ∧
                  Forall popped_least new') as (new' & Ht & Hb).
  { apply (while_loop_invariant
      (λ st, ∃ new', trace st = steps0 ++ new' ∧ Forall popped_least new')
      g (initial_state {| graph := g; steps := steps0 |} start_node))
      with (fuel := enough_fuel g) (o := o); [| |done].
    - exists []. split; [by rewrite app_nil_r|]. constructor.
    - intros st o' Hhead (new1 & Ht1 & Hb1) Hit.
      apply inv_loop_head in Hhead.
      destruct (iteration_shape _ _ _ Hit)
        as [[Ht _]|(cd & cur & q' & evs & Hpop & Hcur & Ht & Hevs & _)].
      + exists new1. by rewrite Ht.
      + eexists. split; [by rewrite Ht, Ht1, <- app_assoc|].
        apply Forall_app. split; [done|]. constructor.
        * intros x dx Hx Hdx. exists cd.
          split; [by eapply popped_distance|].
          assert ((dx, x) ∈ priority_queue st) as Hin.
          { apply (inv_queue_has _ _ _ _ Hhead); [set_solver|done]. }
          apply (heappop_least _ _ _ _ Hpop Hin).
        * eapply Forall_impl; [exact Hevs|]. by intros [].  }
  rewrite Hnew in Ht. by apply app_inv_head in Ht as <-.
Qed.

(** C8. Two calls from the same start node on fresh engines for the same
    graph give the same table and the same trace, whatever the runtime
    does where the source leaves it free. On every runtime whose [heapq]
    behaves as documented, the call ends, and what it returns or raises is
    what [run] gives, with the visited set of each [visit_node] event
    listed by the runtime. So two calls on runtimes that list sets alike,
    as two calls in one interpreter do, give equal results, whichever way
    each lays out its heap: equal tables, equal events in equal order,
    equal [visited_nodes] lists. On runtimes that list sets in different
    orders the results are still equal once [visited_nodes] is read as the
    set that it lists. And ties are broken by the node identifier: every
    node is visited with the least entry among the nodes not visited
    before it that have a finite entry, and with the least identifier
    among those of equal entry. *)
Theorem run_deterministic :
  (∀ rt heap g start_node,
     conforms rt heap →
     run_on rt g start_node =
     render_result (rt_list rt) <$> (fst <$> run (init g) start_node)) ∧
  (∀ rt1 heap1 rt2 heap2 g start_node,
     conforms rt1 heap1 →
     conforms rt2 heap2 →
     (∀ adds, rt_list rt1 adds = rt_list rt2 adds) →
     is_Some (run_on rt1 g start_node) ∧
     run_on rt1 g start_node = run_on rt2 g start_node) ∧
  (∀ rt heap g start_node,
     conforms rt heap →
     lists_elements rt →
     as_sets <$> run_on rt g start_node = fst <$> run (init g) start_node) ∧
  (∀ self start_node r self' new,
     run self start_node = Some (r, self') →
     steps self' = steps self ++ new →
     Forall popped_least new).
Proof.
  split_and!.
  - intros rt heap g start_node Hrt. by apply (run_on_render rt heap).
  - intros rt1 heap1 rt2 heap2 g start_node H1 H2 Hl.
    rewrite (run_on_render rt1 heap1 H1), (run_on_render rt2 heap2 H2).
    destruct (run_total (init g) start_node) as [[r self'] ->]. simpl.
    split; [done|]. f_equal. destruct r as [D t|e]; simpl; [|done].
    f_equal. by apply render_ext.
  - intros rt heap g start_node Hrt Hl.
    rewrite (run_on_render rt heap Hrt).
    destruct (run (init g) start_node) as [[r self']|] eqn:Hrun; [|done].
    simpl. f_equal.
    destruct (run_unfold _ _ _ _ Hrun) as (o & _ & -> & ->).
    destruct (run_new_history _ _ _ _ (trace (state_of o)) Hrun eq_refl)
      as (D & V & Hh & _).
    destruct o as [st|e st]; simpl in *; [|done].
    f_equal. by eapply as_set_render.
  - apply run_popped_least.
Qed.

Lemma run_deterministic_witness :
  run_on reverse_runtime tie_graph "S" =
    render_result reverse <$> (fst <$> run (init tie_graph) "S") ∧
  (is_Some (run_on list_runtime tie_graph "S") ∧
   run_on list_runtime tie_graph "S" = run_on append_runtime tie_graph "S") ∧
  as_sets <$> run_on reverse_runtime tie_graph "S" =
    fst <$> run (init tie_graph) "S" ∧
  Forall popped_least tie_trace.
Proof.
  split; [|split; [|split]].
  - apply (proj1 run_deterministic reverse_runtime (λ _, True)).
    apply reverse_runtime_conforms.
  - apply (proj1 (proj2 run_deterministic)
             list_runtime (λ _, True) append_runtime (λ _, True)).
    + apply list_runtime_conforms.
    + apply append_runtime_conforms.
    + reflexivity.
  - apply (proj1 (proj2 (proj2 run_deterministic))
             reverse_runtime (λ _, True)).
    + apply reverse_runtime_conforms.
    + apply reverse_runtime_lists.
  - apply (proj2 (proj2 (proj2 run_deterministic)) (init tie_graph) "S"
             (Returns (<["A" := Fin 1]> (<["B" := Fin 1]>
                         (initial_distances tie_graph "S"))) tie_trace)
             {| graph := tie_graph; steps := tie_trace |} tie_trace);
      [vm_compute; reflexivity | reflexivity].
Defined.
